(** * DirCraft: the tree-structure parser of [src/dircraft.js]

    A shallow embedding of the four pure functions of the parser,
    [extractNameAndComment], [calculateIndentationLevel],
    [parseTreeStructure] and [separateDirectoriesAndFiles], and the
    properties the specification states about them.

    A JavaScript string is a sequence of UTF-16 code units; it is modelled
    as a list of code units, each an [N].  The tree glyphs are all in the
    Basic Multilingual Plane, so each is one code unit, as it is for the
    regular expressions of the source (which carry no [u] flag). *)

From Stdlib Require Import NArith List Lia Bool Ascii String Sorted Permutation.
From stdpp Require Import base option list gmap.
Import ListNotations.

Local Open Scope N_scope.

(** ** Strings *)

Module JsString.

Abbreviation t := (list N).

Definition LF : N := 0x0A.
Definition HASH : N := 0x23.
Definition SLASH : N := 0x2F.
Definition DOT : N := 0x2E.
(** U+2502 [│], U+251C [├], U+2514 [└], U+2500 [─]. *)
Definition VBAR : N := 0x2502.
Definition TEE : N := 0x251C.
Definition ELL : N := 0x2514.
Definition DASH : N := 0x2500.

(** The characters of the [\s] class of a regular expression, which are
    also the ones [String.prototype.trim] removes: WhiteSpace and
    LineTerminator of ECMA-262. *)
Definition isWhiteSpace (c : N) : bool :=
  (c =? 0x09) || (c =? 0x0A) || (c =? 0x0B) || (c =? 0x0C) || (c =? 0x0D)
  || (c =? 0x20) || (c =? 0xA0) || (c =? 0x1680)
  || ((0x2000 <=? c) && (c <=? 0x200A))
  || (c =? 0x2028) || (c =? 0x2029) || (c =? 0x202F) || (c =? 0x205F)
  || (c =? 0x3000) || (c =? 0xFEFF).

(** A string is truthy when it is not empty. *)
Definition truthy (s : t) : bool :=
  match s with [] => false | _ :: _ => true end.

Fixpoint dropWhile (p : N -> bool) (s : t) : t :=
  match s with
  | [] => []
  | c :: s' => if p c then dropWhile p s' else s
  end.

Definition trimStart (s : t) : t := dropWhile isWhiteSpace s.
Definition trimEnd (s : t) : t := rev (dropWhile isWhiteSpace (rev s)).
Definition trim (s : t) : t := trimEnd (trimStart s).

(** [s.split(sep)] for a one-character separator: never the empty
    array, the array of one empty string on the empty string. *)
Fixpoint split (sep : N) (s : t) : list t :=
  match s with
  | [] => [[]]
  | c :: s' =>
      if c =? sep then [] :: split sep s'
      else match split sep s' with
           | part :: parts => (c :: part) :: parts
           | [] => [[c]]
           end
  end.

(** [s.endsWith(c)] for a one-character [c]. *)
Definition endsWith (c : N) (s : t) : bool :=
  match last s with
  | Some d => d =? c
  | None => false
  end.

Definition startsWith (c : N) (s : t) : bool :=
  match s with
  | d :: _ => d =? c
  | [] => false
  end.

(** [s.match(/c/g)]: all the matches of a one-character pattern, [null]
    (here [None]) when there is none. *)
Definition matchAll (c : N) (s : t) : option (list t) :=
  match List.filter (N.eqb c) s with
  | [] => None
  | ms => Some (map (fun m => [m]) ms)
  end.

(** Literals.  A literal of this file is UTF-8 text; [lit] decodes it
    into UTF-16 code units (sequences of one to three bytes give one
    code unit, sequences of four bytes a surrogate pair). *)
Definition byte_of (a : ascii) : N := N_of_ascii a.

Fixpoint bytes (s : string) : list N :=
  match s with
  | EmptyString => []
  | String a s' => byte_of a :: bytes s'
  end.

Definition cont (b : N) : N := N.land b 0x3F.

Fixpoint decode (bs : list N) : t :=
  match bs with
  | [] => []
  | b :: bs1 =>
      if b <? 0x80 then b :: decode bs1
      else match bs1 with
      | [] => [b]
      | b1 :: bs2 =>
          if b <? 0xE0 then
            N.lor (N.shiftl (N.land b 0x1F) 6) (cont b1) :: decode bs2
          else match bs2 with
          | [] => [b]
          | b2 :: bs3 =>
              if b <? 0xF0 then
                N.lor (N.shiftl (N.land b 0x0F) 12)
                  (N.lor (N.shiftl (cont b1) 6) (cont b2)) :: decode bs3
              else match bs3 with
              | [] => [b]
              | b3 :: bs4 =>
                  let cp :=
                    N.lor (N.shiftl (N.land b 0x07) 18)
                      (N.lor (N.shiftl (cont b1) 12)
                         (N.lor (N.shiftl (cont b2) 6) (cont b3))) in
                  let v := cp - 0x10000 in
                  (0xD800 + N.shiftr v 10)
                    :: (0xDC00 + N.land v 0x3FF) :: decode bs4
              end
          end
      end
  end.

Definition lit (s : string) : t := decode (bytes s).

(** [lines.join("\n")], to write a text line by line. *)
Fixpoint unlines (ls : list t) : t :=
  match ls with
  | [] => []
  | [l] => l
  | l :: ls' => l ++ LF :: unlines ls'
  end.

End JsString.

Import JsString.

(** ** Node's [path.dirname]

    [separateDirectoriesAndFiles] calls [path.dirname] of Node's standard
    library, which is not part of the repository.  This is the POSIX
    implementation ([posix.dirname] in Node's [lib/path.js]), followed
    statement by statement: the scan from the last character down to
    index 1 for the first separator that follows a non-separator. *)

Module NodePath.

(** The [for (let i = path.length - 1; i >= 1; --i)] loop, entered at
    index [i] with the current [matchedSlash]; [Some end] when it breaks,
    [None] when it runs out with [end === -1]. *)
Fixpoint scan (path : JsString.t) (i : nat) (matchedSlash : bool) : option nat :=
  match i with
  | O => None
  | S i' =>
      match path !! i with
      | Some c =>
          if c =? SLASH then
            if negb matchedSlash then Some i else scan path i' matchedSlash
          else scan path i' false
      | None => scan path i' matchedSlash
      end
  end.

Definition dirname (path : JsString.t) : JsString.t :=
  if (length path =? 0)%nat then [DOT]
  else
    let hasRoot := startsWith SLASH path in
    match scan path (length path - 1) true with
    | None => if hasRoot then [SLASH] else [DOT]
    | Some e =>
        if hasRoot && (e =? 1)%nat then [SLASH; SLASH]
        else take e path
    end.

End NodePath.

(** ** The parser *)

Record NameAndComment := mkNameAndComment {
  name : JsString.t;
  comment : JsString.t
}.

(** [rawName.replace(pattern, empty)] for the pattern
    [/^[\s│]*[├└]──\s*/] and the empty replacement.  The class [[\s│]]
    contains neither [├] nor [└], so the greedy run can only end where
    the branch glyph starts and the match, when there is one, is unique:
    the run, one of [├] and [└], two [─], and the white space that
    follows.  Without a match the string is returned as it is. *)
Definition isSpaceOrBar (c : N) : bool := isWhiteSpace c || (c =? VBAR).
Definition isBranch (c : N) : bool := (c =? TEE) || (c =? ELL).

Definition stripTreePrefix (rawName : JsString.t) : JsString.t :=
  match dropWhile isSpaceOrBar rawName with
  | b :: d1 :: d2 :: rest =>
      if isBranch b && (d1 =? DASH) && (d2 =? DASH)
      then dropWhile isWhiteSpace rest
      else rawName
  | _ => rawName
  end.

Definition extractNameAndComment (line : JsString.t) : NameAndComment :=
  let parts := split HASH line in
  let rawName := trim (nth 0 parts []) in
  let comment := if (1 <? length parts)%nat then trim (nth 1 parts []) else [] in
  let cleanName := trim (stripTreePrefix rawName) in
  {| name := cleanName; comment := comment |}.

Definition calculateIndentationLevel (line : JsString.t) : nat :=
  match matchAll VBAR line with
  | Some matches => length matches
  | None => O
  end.

Record ParseResult := mkParseResult {
  paths : list JsString.t;
  comments : gmap JsString.t JsString.t
}.

(** [comments[key] = value] on an object made by the literal [{}].  The
    key [__proto__] is the accessor inherited from [Object.prototype],
    whose setter ignores a value that is neither an object nor [null]:
    assigning a string under it creates no property. *)
Definition protoKey : JsString.t := lit "__proto__".

Definition setProperty (key value : JsString.t)
    (obj : gmap JsString.t JsString.t) : gmap JsString.t JsString.t :=
  if decide (key = protoKey) then obj else <[key := value]> obj.

(** The variables the [for] loop of [parseTreeStructure] updates. *)
Record LoopState := mkLoopState {
  st_paths : list JsString.t;
  st_comments : gmap JsString.t JsString.t;
  st_parentStack : list JsString.t
}.

(** [while (parentStack.length > level + 1) parentStack.pop()], the array
    kept in its own order (the top is the last element).  Every turn
    shortens the array, so its length bounds the number of turns. *)
Fixpoint popLoop (turns : nat) (parentStack : list JsString.t) (level : nat)
    : list JsString.t :=
  match turns with
  | O => parentStack
  | S turns' =>
      if (level + 1 <? length parentStack)%nat
      then popLoop turns' (removelast parentStack) level
      else parentStack
  end.

Definition adjustStack (parentStack : list JsString.t) (level : nat)
    : list JsString.t :=
  popLoop (length parentStack) parentStack level.

(** [parentStack[parentStack.length - 1]], or the empty string when that
    is falsy (the empty string, or [undefined] on an empty array). *)
Definition topOrEmpty (parentStack : list JsString.t) : JsString.t :=
  match last parentStack with
  | Some p => if truthy p then p else []
  | None => []
  end.

(** One turn of the [for] loop, on [line = lines[i]]. *)
Definition processLine (st : LoopState) (line : JsString.t) : LoopState :=
  if negb (truthy (trim line)) then st
  else
    let level := calculateIndentationLevel line in
    let nc := extractNameAndComment line in
    if negb (truthy (name nc)) then st
    else
      let parentStack := adjustStack (st_parentStack st) level in
      let parentPath := topOrEmpty parentStack in
      let fullPath := parentPath ++ name nc in
      {| st_paths := st_paths st ++ [fullPath];
         st_comments :=
           if truthy (comment nc)
           then setProperty fullPath (comment nc) (st_comments st)
           else st_comments st;
         st_parentStack :=
           if endsWith SLASH (name nc) then parentStack ++ [fullPath]
           else parentStack |}.

Definition rootName (line0 : JsString.t) : JsString.t :=
  name (extractNameAndComment line0).

(** The state when the loop is entered: the root, when it has a name, is
    the only path, and the root name (empty or not) the only ancestor. *)
Definition initState (line0 : JsString.t) : LoopState :=
  let rootComment := comment (extractNameAndComment line0) in
  {| st_paths := if truthy (rootName line0) then [rootName line0] else [];
     st_comments :=
       if truthy (rootName line0) && truthy rootComment
       then setProperty (rootName line0) rootComment ∅
       else ∅;
     st_parentStack := [rootName line0] |}.

(** [content.split("\n").filter((line) => line.trim())]. *)
Definition nonBlankLines (content : JsString.t) : list JsString.t :=
  List.filter (fun line => truthy (trim line)) (split LF content).

Definition parseLines (lines : list JsString.t) : ParseResult :=
  match lines with
  | [] => {| paths := []; comments := ∅ |}
  | line0 :: rest =>
      let st := fold_left processLine rest (initState line0) in
      {| paths := st_paths st; comments := st_comments st |}
  end.

Definition parseTreeStructure (content : JsString.t) : ParseResult :=
  parseLines (nonBlankLines content).

(** The invariant of the loop behind C10: a comment is only kept under a
    path that was emitted. *)
Definition commentsWithinPaths (st : LoopState) : Prop :=
  forall key : JsString.t,
    is_Some (st_comments st !! key) -> key ∈ st_paths st.

(** ** The classifier *)

Record Classification := mkClassification {
  directories : list JsString.t;
  files : list JsString.t
}.

(** [directories.add(dir)]: a [Set] keeps its elements in the order of
    their first insertion, which is the order [Array.from] reads. *)
Definition setAdd (dir : JsString.t) (directories : list JsString.t)
    : list JsString.t :=
  if decide (dir ∈ directories) then directories else directories ++ [dir].

(** [while (currentDir && currentDir !== ".") { ... }].  Nothing in the
    source bounds the number of turns: the loop is run with [fuel] turns
    at most, and [None] says that they did not suffice. *)
Fixpoint parentLoop (fuel : nat) (currentDir : JsString.t)
    (directories : list JsString.t) : option (list JsString.t) :=
  match fuel with
  | O => None
  | S fuel' =>
      if truthy currentDir && negb (bool_decide (currentDir = [DOT]))
      then parentLoop fuel' (NodePath.dirname currentDir)
             (setAdd (currentDir ++ [SLASH]) directories)
      else Some directories
  end.

(** One turn of [for (const filePath of paths)]. *)
Definition classifyPath (fuel : nat)
    (acc : list JsString.t * list JsString.t) (filePath : JsString.t)
    : option (list JsString.t * list JsString.t) :=
  if endsWith SLASH filePath
  then Some (setAdd filePath acc.1, acc.2)
  else
    match parentLoop fuel (NodePath.dirname filePath) acc.1 with
    | Some directories' => Some (directories', acc.2 ++ [filePath])
    | None => None
    end.

Fixpoint classifyLoop (fuel : nat) (paths : list JsString.t)
    (acc : list JsString.t * list JsString.t)
    : option (list JsString.t * list JsString.t) :=
  match paths with
  | [] => Some acc
  | filePath :: paths' =>
      match classifyPath fuel acc filePath with
      | Some acc' => classifyLoop fuel paths' acc'
      | None => None
      end
  end.

(** [(a.match(/\//g) || []).length]. *)
Definition depth (a : JsString.t) : nat :=
  match matchAll SLASH a with
  | Some matches => length matches
  | None => length (@nil JsString.t)
  end.

(** [Array.prototype.sort] with the comparator [aDepth - bDepth].  The
    sort is stable (ECMAScript 2019) and the comparator is consistent, so
    the result does not depend on the algorithm of the engine; here it is
    an insertion sort that puts an element after the ones that compare
    equal to it. *)
Fixpoint insertByDepth (a : JsString.t) (sorted : list JsString.t)
    : list JsString.t :=
  match sorted with
  | [] => [a]
  | b :: sorted' =>
      if (depth b <=? depth a)%nat then b :: insertByDepth a sorted'
      else a :: sorted
  end.

Definition sortByDepth (dirs : list JsString.t) : list JsString.t :=
  fold_left (fun sorted a => insertByDepth a sorted) dirs [].

Definition separateDirectoriesAndFiles (fuel : nat) (paths : list JsString.t)
    : option Classification :=
  match classifyLoop fuel paths ([], []) with
  | Some (dirs, files) =>
      Some {| directories := sortByDepth dirs; files := files |}
  | None => None
  end.

(** ** The example tree of the specification *)

Definition exampleTree : JsString.t :=
  unlines
    [ lit "project/";
      lit "├── src/";
      lit "│   ├── components/";
      lit "│   │   ├── Button.js # Button component";
      lit "│   │   └── Input.js";
      lit "│   └── index.js";
      lit "└── package.json # Project dependencies" ].

Definition examplePaths : list JsString.t :=
  [ lit "project/";
    lit "project/src/";
    lit "project/src/components/";
    lit "project/src/components/Button.js";
    lit "project/src/components/Input.js";
    lit "project/src/index.js";
    lit "project/package.json" ].

(** What the classifier is to produce.  A directory that the parent
    loop may add: [dir] is proper when the loop condition holds of it, and
    [dirChain dir d] says that [d] is [dir], or one of the directories
    above it that the loop reaches through proper ones, with [/] put
    behind it. *)
Definition properDir (dir : JsString.t) : Prop := dir <> [] /\ dir <> [DOT].

Definition dirChain (dir d : JsString.t) : Prop :=
  exists k : nat,
    (forall j : nat, (j <= k)%nat ->
                     properDir (Nat.iter j NodePath.dirname dir))
    /\ d = Nat.iter k NodePath.dirname dir ++ [SLASH].

Definition impliedAncestor (filePath d : JsString.t) : Prop :=
  dirChain (NodePath.dirname filePath) d.

Definition isFile (filePath : JsString.t) : bool :=
  negb (endsWith SLASH filePath).

Definition depthOrder (a b : JsString.t) : Prop := (depth a <= depth b)%nat.

(** A tree with a spacer line, as hand-drawn trees have them. *)
Definition spacerTree : JsString.t :=
  unlines
    [ lit "project/";
      lit "├── src/";
      lit "│   └── a.js";
      lit "│";
      lit "└── b.js" ].

(** ** Lines as the tool expects them

    The line format of the help text of [showHelp] and of the trees of
    the tests: [level] times a bar and three spaces, a branch glyph
    ([└──] for the last entry of a directory, [├──] otherwise), a space,
    the name, and, when there is a comment, [ # ] and the comment. *)
Fixpoint indentation (level : nat) : JsString.t :=
  match level with
  | O => []
  | S level' => VBAR :: 0x20 :: 0x20 :: 0x20 :: indentation level'
  end.

Definition formatLine (level : nat) (isLast : bool)
    (entryName entryComment : JsString.t) : JsString.t :=
  indentation level
    ++ (if isLast then ELL else TEE) :: DASH :: DASH :: 0x20 :: entryName
    ++ (if truthy entryComment
        then 0x20 :: HASH :: 0x20 :: entryComment
        else []).

(** The lines that give a path: the non-blank lines that have a name. *)
Definition hasName (line : JsString.t) : bool :=
  truthy (name (extractNameAndComment line)).

Definition namedLines (content : JsString.t) : list JsString.t :=
  List.filter hasName (nonBlankLines content).

(** A string without white space at either end. *)
Definition isTrimmed (s : JsString.t) : Prop := trim s = s.

(** [path] is made of some parent path and the name of [line]. *)
Definition endsWithNameOf (path line : JsString.t) : Prop :=
  exists parent, path = parent ++ name (extractNameAndComment line).


Definition rootStartsAll (root : JsString.t) (st : LoopState) : Prop :=
  st_parentStack st <> []
  /\ Forall (fun e => root `prefix_of` e) (st_parentStack st)
  /\ Forall (fun p => root `prefix_of` p) (st_paths st).

(** What is kept in the comment map. *)
Definition commentsAreProper (st : LoopState) : Prop :=
  forall key val : JsString.t,
    st_comments st !! key = Some val ->
    val <> [] /\ isTrimmed val /\ ~ In HASH val /\ key <> protoKey.

(** ** Trees

    A tree below a root, to say what the parser is for: an entry is a
    file or a directory with its entries, each with a name and a comment
    (possibly empty).  [renderAll] draws the entries in the format of the
    tool, every level of nesting drawn as one bar, and [pathsOf] lists
    the paths the entries stand for, a directory before what it holds. *)
#[local] Set Warnings "-register-all".

Inductive Entry :=
| File (entryName entryComment : JsString.t)
| Dir (entryName entryComment : JsString.t) (children : list Entry).

Section EntryInduction.

Variable P : Entry -> Prop.
Hypothesis P_file : forall n c, P (File n c).
Hypothesis P_dir : forall n c children, Forall P children -> P (Dir n c children).

Fixpoint Entry_nested_ind (e : Entry) : P e :=
  match e with
  | File n c => P_file n c
  | Dir n c children =>
      P_dir n c children
        ((fix all (es : list Entry) : Forall P es :=
            match es with
            | [] => @List.Forall_nil Entry P
            | e' :: es' =>
                @List.Forall_cons Entry P e' es' (Entry_nested_ind e') (all es')
            end) children)
  end.

End EntryInduction.

Definition isLastOf (rest : list Entry) : bool :=
  match rest with
  | [] => true
  | _ :: _ => false
  end.

Fixpoint renderEntry (level : nat) (isLast : bool) (e : Entry)
    : list JsString.t :=
  match e with
  | File n c => [formatLine level isLast n c]
  | Dir n c children =>
      formatLine level isLast n c
        :: (fix renderChildren (es : list Entry) : list JsString.t :=
              match es with
              | [] => []
              | e' :: es' =>
                  renderEntry (S level) (isLastOf es') e'
                    ++ renderChildren es'
              end) children
  end.

Fixpoint renderAll (level : nat) (es : list Entry) : list JsString.t :=
  match es with
  | [] => []
  | e :: es' => renderEntry level (isLastOf es') e ++ renderAll level es'
  end.

Fixpoint pathsOf (parent : JsString.t) (e : Entry) : list JsString.t :=
  match e with
  | File n _ => [parent ++ n]
  | Dir n _ children =>
      (parent ++ n) :: List.flat_map (pathsOf (parent ++ n)) children
  end.

(** Names and comments as the format can carry them: trimmed, and with
    no [#], no [│] and no line break; a name is not empty, and it ends in
    [/] exactly when it is the name of a directory. *)
Definition goodText (s : JsString.t) : Prop :=
  isTrimmed s /\ ~ In HASH s /\ ~ In VBAR s /\ ~ In LF s.

Inductive WellFormed : Entry -> Prop :=
| WellFormed_file n c :
    n <> [] -> goodText n -> goodText c -> endsWith SLASH n = false ->
    WellFormed (File n c)
| WellFormed_dir n c children :
    n <> [] -> goodText n -> goodText c -> endsWith SLASH n = true ->
    Forall WellFormed children ->
    WellFormed (Dir n c children).

(** What the loop does on the drawing of an entry, entered with the
    parent of the entry at index [level] of the ancestor stack: it emits
    the paths of the entry and leaves the stack as it was up to the
    parent. *)
Definition drawsPaths (e : Entry) : Prop :=
  WellFormed e ->
  forall level isLast st pre parent post,
    st_parentStack st = pre ++ parent :: post ->
    length pre = level ->
    exists post',
      st_paths (fold_left processLine (renderEntry level isLast e) st)
      = st_paths st ++ pathsOf parent e
      /\ st_parentStack (fold_left processLine (renderEntry level isLast e) st)
         = pre ++ parent :: post'.

(** A line that is one line of the text and is not dropped as blank. *)
Definition lineIsKept (line : JsString.t) : Prop :=
  ~ In LF line /\ truthy (trim line) = true.

(** ** The command line: [parseArgs]

    The options object, with [null] as [None].  [parseArgs] is given the
    argument list it works on ([args], or [process.argv.slice(2)] when
    the caller passes none). *)

Module Cli.

Record Options := mkOptions {
  filePath : option JsString.t;
  outputDir : JsString.t;
  skipConfirmation : bool;
  showHelp : bool;
  directStructure : option JsString.t
}.

(** A value that is [null] or a string is truthy when it is a string
    that is not empty. *)
Definition truthyOrNull (v : option JsString.t) : bool :=
  match v with
  | Some s => truthy s
  | None => false
  end.

Definition defaults : Options :=
  {| filePath := None; outputDir := lit "."; skipConfirmation := false;
     showHelp := false; directStructure := None |}.

Definition setShowHelp (o : Options) : Options :=
  {| filePath := filePath o; outputDir := outputDir o;
     skipConfirmation := skipConfirmation o; showHelp := true;
     directStructure := directStructure o |}.

Definition setSkipConfirmation (o : Options) : Options :=
  {| filePath := filePath o; outputDir := outputDir o;
     skipConfirmation := true; showHelp := showHelp o;
     directStructure := directStructure o |}.

Definition setOutputDir (dir : JsString.t) (o : Options) : Options :=
  {| filePath := filePath o; outputDir := dir;
     skipConfirmation := skipConfirmation o; showHelp := showHelp o;
     directStructure := directStructure o |}.

Definition setDirectStructure (text : option JsString.t) (o : Options)
    : Options :=
  {| filePath := filePath o; outputDir := outputDir o;
     skipConfirmation := skipConfirmation o; showHelp := showHelp o;
     directStructure := text |}.

Definition setFilePath (arg : JsString.t) (o : Options) : Options :=
  {| filePath := Some arg; outputDir := outputDir o;
     skipConfirmation := skipConfirmation o; showHelp := showHelp o;
     directStructure := directStructure o |}.

Definition isHelp (arg : JsString.t) : bool :=
  bool_decide (arg = lit "-h") || bool_decide (arg = lit "--help").
Definition isYes (arg : JsString.t) : bool :=
  bool_decide (arg = lit "-y") || bool_decide (arg = lit "--yes").
Definition isOutput (arg : JsString.t) : bool :=
  bool_decide (arg = lit "-o") || bool_decide (arg = lit "--output").
Definition isStructure (arg : JsString.t) : bool :=
  bool_decide (arg = lit "-s") || bool_decide (arg = lit "--structure").

(** The [for] loop, from the argument at index [i] on.  [cliArgs[++i]]
    takes the next argument, whatever it is, and steps over it; behind
    the last argument it is [undefined], which is falsy. *)
Fixpoint parseArgsLoop (cliArgs : list JsString.t) (options : Options)
    : Options :=
  match cliArgs with
  | [] => options
  | arg :: rest =>
      if isHelp arg then parseArgsLoop rest (setShowHelp options)
      else if isYes arg then parseArgsLoop rest (setSkipConfirmation options)
      else if isOutput arg then
        match rest with
        | next :: rest' =>
            parseArgsLoop rest'
              (setOutputDir (if truthy next then next else lit ".") options)
        | [] => setOutputDir (lit ".") options
        end
      else if isStructure arg then
        match rest with
        | next :: rest' =>
            parseArgsLoop rest'
              (setDirectStructure (if truthy next then Some next else None)
                 options)
        | [] => setDirectStructure None options
        end
      else if negb (truthyOrNull (filePath options))
              && negb (truthyOrNull (directStructure options))
      then parseArgsLoop rest (setFilePath arg options)
      else parseArgsLoop rest options
  end.

Definition parseArgs (cliArgs : list JsString.t) : Options :=
  parseArgsLoop cliArgs defaults.

(** The arguments that take the next one as their value, and the
    arguments that are no option at all. *)
Definition takesValue (arg : JsString.t) : bool :=
  isOutput arg || isStructure arg.
Definition isPositional (arg : JsString.t) : bool :=
  negb (isHelp arg || isYes arg || isOutput arg || isStructure arg).

(** One turn of the loop of [parseArgs] on an argument that takes no
    value. *)
Definition flagStep (arg : JsString.t) (options : Options) : Options :=
  if isHelp arg then setShowHelp options
  else if isYes arg then setSkipConfirmation options
  else if negb (truthyOrNull (filePath options))
          && negb (truthyOrNull (directStructure options))
  then setFilePath arg options
  else options.

(** The file among the arguments that are no option: the first that is
    not the empty string or, when all are empty, the last. *)
Definition chosenFile (positionals : list JsString.t)
    : option JsString.t :=
  match List.find truthy positionals with
  | Some p => Some p
  | None => last positionals
  end.

End Cli.

(** ** Building the structure

    [parseDirectoryFromText], [parseDirectoryStructure] and [main] work
    on collaborators: the file system object (the [fileSystem] option, or
    Node's [fs]), [path.join], and the question [confirmAction] asks on
    the terminal.  They are parameters here.  A call of the file system
    changes the world and may fail (a rejected promise); [World] is what
    such calls change, [Error] what they throw.  The calls of the logger
    are left out of the model: they change neither the file system nor
    the result. *)

Record FileSystem (World Error : Type) := mkFileSystem {
  (** [readFile(path, "utf8")] *)
  readFile : JsString.t -> World -> World * (Error + JsString.t);
  (** [mkdir(path, { recursive: true })] *)
  mkdir : JsString.t -> World -> World * option Error;
  (** [writeFile(path, data)] *)
  writeFile : JsString.t -> JsString.t -> World -> World * option Error
}.
Arguments readFile {World Error}.
Arguments mkdir {World Error}.
Arguments writeFile {World Error}.

(** [{ success, error }]. *)
Record RunResult (Error : Type) := mkRunResult {
  success : bool;
  error : option Error
}.
Arguments mkRunResult {Error}.
Arguments success {Error}.
Arguments error {Error}.

(** [{ exitCode, error }]. *)
Record MainResult (Error : Type) := mkMainResult {
  exitCode : nat;
  mainError : option Error
}.
Arguments mkMainResult {Error}.
Arguments exitCode {Error}.
Arguments mainError {Error}.

(** A call of the file system, to speak of the calls a run makes. *)
Inductive FsCall :=
| Mkdir (dirPath : JsString.t)
| WriteFile (filePath data : JsString.t).

Section Glue.

Context {World Error : Type}.
Variable fileSystem : FileSystem World Error.
Variable join : JsString.t -> JsString.t -> JsString.t.
Variable confirmAction : World -> World * bool.

(** [for (const dir of directories) { await fileSystem.mkdir(...) }]: a
    rejected call leaves the loop, and the function, at once. *)
Fixpoint createDirectories (outputDir : JsString.t)
    (directories : list JsString.t) (w : World) : World * option Error :=
  match directories with
  | [] => (w, None)
  | dir :: directories' =>
      let dirPath := join outputDir dir in
      match mkdir fileSystem dirPath w with
      | (w1, Some e) => (w1, Some e)
      | (w1, None) => createDirectories outputDir directories' w1
      end
  end.

(** [for (const file of files) { ... }]: the directory of the file is
    made, then the empty file is written. *)
Fixpoint createFiles (outputDir : JsString.t) (files : list JsString.t)
    (w : World) : World * option Error :=
  match files with
  | [] => (w, None)
  | file :: files' =>
      let filePath := join outputDir file in
      let parentDir := NodePath.dirname filePath in
      match mkdir fileSystem parentDir w with
      | (w1, Some e) => (w1, Some e)
      | (w1, None) =>
          match writeFile fileSystem filePath [] w1 with
          | (w2, Some e) => (w2, Some e)
          | (w2, None) => createFiles outputDir files' w2
          end
      end
  end.

(** The body that [parseDirectoryFromText] and [parseDirectoryStructure]
    share word for word, from [parseTreeStructure(...)] on.  [None]: the
    classifier did not return within [fuel] turns. *)
Definition createStructure (fuel : nat) (content outputDir : JsString.t)
    (skipConfirmation : bool) (w : World)
    : option (World * RunResult Error) :=
  let parsed := parseTreeStructure content in
  match separateDirectoriesAndFiles fuel (paths parsed) with
  | None => None
  | Some c =>
      if (length (directories c) =? 0)%nat && (length (files c) =? 0)%nat
      then Some (w, {| success := false; error := None |})
      else
        let '(w1, shouldProceed) :=
          if skipConfirmation then (w, true) else confirmAction w in
        if negb shouldProceed
        then Some (w1, {| success := false; error := None |})
        else
          match createDirectories outputDir (directories c) w1 with
          | (w2, Some e) => Some (w2, {| success := false; error := Some e |})
          | (w2, None) =>
              match createFiles outputDir (files c) w2 with
              | (w3, Some e) =>
                  Some (w3, {| success := false; error := Some e |})
              | (w3, None) =>
                  Some (w3, {| success := true; error := None |})
              end
          end
  end.

Definition parseDirectoryFromText (fuel : nat)
    (structureText outputDir : JsString.t) (skipConfirmation : bool)
    (w : World) : option (World * RunResult Error) :=
  createStructure fuel structureText outputDir skipConfirmation w.

Definition parseDirectoryStructure (fuel : nat)
    (filePath outputDir : JsString.t) (skipConfirmation : bool) (w : World)
    : option (World * RunResult Error) :=
  match readFile fileSystem filePath w with
  | (w1, inl e) => Some (w1, {| success := false; error := Some e |})
  | (w1, inr content) =>
      createStructure fuel content outputDir skipConfirmation w1
  end.

(** [{ exitCode: result.success ? 0 : 1, error: result.error }], once
    the run has returned. *)
Definition exitOf (run : option (World * RunResult Error))
    : option (World * MainResult Error) :=
  match run with
  | None => None
  | Some (w1, result) =>
      Some (w1, {| exitCode := if success result then 0 else 1;
                   mainError := error result |})
  end.

(** [main] of [bin/cli.js], on the options it is given or has parsed. *)
Definition main (fuel : nat) (parsedOptions : Cli.Options) (w : World)
    : option (World * MainResult Error) :=
  if Cli.showHelp parsedOptions
     || (negb (Cli.truthyOrNull (Cli.filePath parsedOptions))
         && negb (Cli.truthyOrNull (Cli.directStructure parsedOptions)))
  then
    Some (w, {| exitCode := if Cli.showHelp parsedOptions then 0 else 1;
                mainError := None |})
  else
    exitOf
      (if Cli.truthyOrNull (Cli.directStructure parsedOptions)
       then parseDirectoryFromText fuel
              (default [] (Cli.directStructure parsedOptions))
              (Cli.outputDir parsedOptions)
              (Cli.skipConfirmation parsedOptions) w
       else parseDirectoryStructure fuel
              (default [] (Cli.filePath parsedOptions))
              (Cli.outputDir parsedOptions)
              (Cli.skipConfirmation parsedOptions) w).

(** The calls a run is to make for a classification, in their order, and
    what making a list of calls one after the other, up to the first that
    fails, does. *)
Definition callsFor (outputDir : JsString.t) (c : Classification)
    : list FsCall :=
  map (fun dir => Mkdir (join outputDir dir)) (directories c)
  ++ flat_map
       (fun file =>
          [Mkdir (NodePath.dirname (join outputDir file));
           WriteFile (join outputDir file) []])
       (files c).

Definition perform1 (call : FsCall) (w : World) : World * option Error :=
  match call with
  | Mkdir dirPath => mkdir fileSystem dirPath w
  | WriteFile filePath data => writeFile fileSystem filePath data w
  end.

Fixpoint perform (calls : list FsCall) (w : World) : World * option Error :=
  match calls with
  | [] => (w, None)
  | call :: calls' =>
      match perform1 call w with
      | (w1, Some e) => (w1, Some e)
      | (w1, None) => perform calls' w1
      end
  end.

End Glue.

(** A file system that records the calls made on it, as the mocks of the
    tests do, and one that also refuses to make the directory [bad]; a
    join that puts [/] between its arguments; an answer to the
    question. *)
Definition recorder : FileSystem (list FsCall) JsString.t :=
  {| readFile := fun _ w => (w, inl (lit "ENOENT"));
     mkdir := fun dirPath w => (w ++ [Mkdir dirPath], None);
     writeFile := fun filePath data w => (w ++ [WriteFile filePath data], None)
  |}.

Definition refusing (bad : JsString.t) : FileSystem (list FsCall) JsString.t :=
  {| readFile := fun _ w => (w, inl (lit "ENOENT"));
     mkdir := fun dirPath w =>
       (w ++ [Mkdir dirPath],
        if decide (dirPath = bad) then Some (lit "EACCES") else None);
     writeFile := fun filePath data w => (w ++ [WriteFile filePath data], None)
  |}.

Definition slashJoin (a b : JsString.t) : JsString.t := a ++ SLASH :: b.

Definition answer (yes : bool) : list FsCall -> list FsCall * bool :=
  fun w => (w, yes).

(** A small tree to build. *)
Definition smallTree : JsString.t :=
  unlines [lit "app/"; lit "└── main.js"].

(** Whether a run went through without an error. *)
Definition noError {Error : Type} (e : option Error) : bool :=
  match e with
  | None => true
  | Some _ => false
  end.

(** * Properties *)

Arguments extractNameAndComment : simpl never.
Arguments calculateIndentationLevel : simpl never.
Arguments adjustStack : simpl never.
Arguments topOrEmpty : simpl never.
Arguments trim : simpl never.

(** ** Literals and the string primitives *)

Example lit_glyphs :
  lit "│" = [VBAR] /\ lit "├── " = [TEE; DASH; DASH; 0x20]
  /\ lit "└──" = [ELL; DASH; DASH] /\ lit "a/#" = [0x61; SLASH; HASH].
Proof. repeat split; vm_compute; reflexivity. Qed.

Lemma filter_eqb_count c s :
  length (List.filter (N.eqb c) s) = count_occ N.eq_dec s c.
Proof.
  induction s as [|d s IH]; simpl; [reflexivity|].
  destruct (N.eqb_spec c d) as [->|Hne].
  - destruct (N.eq_dec d d); [simpl; congruence|contradiction].
  - destruct (N.eq_dec d c); [congruence|assumption].
Qed.

Lemma matchAll_length c s :
  match matchAll c s with Some ms => length ms | None => O end
  = count_occ N.eq_dec s c.
Proof.
  unfold matchAll. rewrite <- filter_eqb_count.
  destruct (List.filter (N.eqb c) s); simpl; [reflexivity|].
  now rewrite length_map.
Qed.

Lemma calculateIndentationLevel_count line :
  calculateIndentationLevel line = count_occ N.eq_dec line VBAR.
Proof. apply matchAll_length. Qed.

(** ** C8: the indentation level is the number of [│] in the line *)

(** C8.  [calculateIndentationLevel] returns the number of occurrences of
    [│] in the whole line: the count is additive over any cut of the line
    into two parts (so a [│] behind the branch glyph, in the name or in
    the comment counts like a leading one), it is 0 exactly when the line
    has no [│], the line [│   │   ├── x] has level 2, and so has a line
    with one [│] in its name and one in its comment. *)
Theorem calculateIndentationLevel_counts_every_bar :
  (forall line : JsString.t,
      calculateIndentationLevel line = count_occ N.eq_dec line VBAR)
  /\ (forall before after : JsString.t,
         calculateIndentationLevel (before ++ after)
         = (calculateIndentationLevel before
            + calculateIndentationLevel after)%nat)
  /\ (forall before after : JsString.t,
         calculateIndentationLevel (before ++ VBAR :: after)
         = S (calculateIndentationLevel (before ++ after)))
  /\ (forall line : JsString.t,
         calculateIndentationLevel line = O <-> ~ In VBAR line)
  /\ calculateIndentationLevel (lit "│   │   ├── x") = 2%nat
  /\ calculateIndentationLevel (lit "├── a│b.js # left│right") = 2%nat.
Proof.
  repeat split.
  - apply calculateIndentationLevel_count.
  - intros. rewrite !calculateIndentationLevel_count. apply count_occ_app.
  - intros. rewrite !calculateIndentationLevel_count, !count_occ_app.
    rewrite count_occ_cons_eq by reflexivity. lia.
  - rewrite calculateIndentationLevel_count. apply count_occ_not_In.
  - rewrite calculateIndentationLevel_count. apply count_occ_not_In.
Qed.

(** ** C1: the example tree *)

(** C1.  On the seven-line example tree [parseTreeStructure] returns the
    seven paths [project/], [project/src/], [project/src/components/],
    [project/src/components/Button.js],
    [project/src/components/Input.js], [project/src/index.js] and
    [project/package.json], in this order and no other, and a comment map
    that holds [Button component] under the path of [Button.js] and
    [Project dependencies] under the path of [package.json] (and nothing
    else). *)
Theorem parseTreeStructure_example :
  paths (parseTreeStructure exampleTree) = examplePaths
  /\ comments (parseTreeStructure exampleTree)
       !! lit "project/src/components/Button.js"
     = Some (lit "Button component")
  /\ comments (parseTreeStructure exampleTree) !! lit "project/package.json"
     = Some (lit "Project dependencies")
  /\ comments (parseTreeStructure exampleTree)
     = <[lit "project/package.json" := lit "Project dependencies"]>
         (<[lit "project/src/components/Button.js" := lit "Button component"]>
            ∅).
Proof. repeat split; vm_compute; reflexivity. Qed.

(** ** White space and trimming *)

Lemma dropWhile_nil_iff p s : dropWhile p s = [] <-> forallb p s = true.
Proof.
  induction s as [|c s IH]; simpl; [tauto|].
  destruct (p c); simpl; [exact IH|]. split; discriminate.
Qed.

Lemma dropWhile_head p s c s' : dropWhile p s = c :: s' -> p c = false.
Proof.
  induction s as [|d s IH]; simpl; [discriminate|].
  destruct (p d) eqn:Hd; [exact IH|]. intros [= -> _]. exact Hd.
Qed.

Lemma forallb_rev_eq (p : N -> bool) s : forallb p (rev s) = forallb p s.
Proof.
  induction s as [|c s IH]; simpl; [reflexivity|].
  rewrite forallb_app, IH. simpl. rewrite andb_true_r. apply andb_comm.
Qed.

Lemma trim_nil_iff s : trim s = [] <-> forallb isWhiteSpace s = true.
Proof.
  unfold trim, trimEnd, trimStart. split.
  - intros H. apply (f_equal (@rev N)) in H. rewrite rev_involutive in H.
    simpl in H. apply dropWhile_nil_iff in H. rewrite forallb_rev_eq in H.
    destruct (dropWhile isWhiteSpace s) as [|c s'] eqn:E.
    + now apply dropWhile_nil_iff.
    + apply dropWhile_head in E. simpl in H. rewrite E in H. discriminate.
  - intros H. apply dropWhile_nil_iff in H. now rewrite H.
Qed.

Lemma truthy_true_iff s : truthy s = true <-> s <> [].
Proof. destruct s; simpl; split; congruence. Qed.

Lemma truthy_false_iff s : truthy s = false <-> s = [].
Proof. destruct s; simpl; split; congruence. Qed.

Lemma split_head_white sep s :
  forallb isWhiteSpace s = true ->
  forallb isWhiteSpace (nth 0 (split sep s) []) = true.
Proof.
  induction s as [|c s IH]; simpl; [reflexivity|].
  intros [Hc Hs]%andb_true_iff. destruct (c =? sep); [reflexivity|].
  specialize (IH Hs). destruct (split sep s) as [|part parts]; simpl in *.
  - now rewrite Hc.
  - now rewrite Hc, IH.
Qed.

(** A line that has a name is not blank: the test [!line.trim()] of the
    loop never fires before the test [!name]. *)
Lemma name_truthy_line_truthy line :
  truthy (name (extractNameAndComment line)) = true ->
  truthy (trim line) = true.
Proof.
  intros Hname. destruct (truthy (trim line)) eqn:E; [reflexivity|].
  apply truthy_false_iff, trim_nil_iff in E.
  apply (split_head_white HASH) in E. apply trim_nil_iff in E.
  unfold extractNameAndComment in Hname. simpl in Hname.
  rewrite E in Hname. discriminate.
Qed.

(** ** The ancestor stack *)

Lemma popLoop_take turns (stack : list JsString.t) level :
  (length stack <= turns + (level + 1))%nat ->
  popLoop turns stack level = take (level + 1) stack.
Proof.
  revert stack. induction turns as [|turns IH]; intros stack Hlen; simpl.
  - symmetry. apply take_ge. lia.
  - destruct (Nat.ltb_spec (level + 1) (length stack)) as [Hlt|Hge].
    + rewrite IH.
      * rewrite removelast_firstn_len.
        change (firstn (Init.Nat.pred (length stack)) stack)
          with (take (Init.Nat.pred (length stack)) stack).
        rewrite take_take. f_equal. lia.
      * rewrite removelast_firstn_len, length_firstn. lia.
    + symmetry. apply take_ge. lia.
Qed.

Lemma adjustStack_take (stack : list JsString.t) level :
  adjustStack stack level = take (level + 1) stack.
Proof. apply popLoop_take. lia. Qed.

Lemma head_take_S {A} (l : list A) n : head (take (S n) l) = head l.
Proof. destruct l; reflexivity. Qed.

Lemma head_app_nonempty {A} (l k : list A) : l <> [] -> head (l ++ k) = head l.
Proof. destruct l; [congruence|reflexivity]. Qed.

Lemma processLine_stack_head st line root :
  head (st_parentStack st) = Some root ->
  head (st_parentStack (processLine st line)) = Some root.
Proof.
  intros Hhead. unfold processLine.
  destruct (negb (truthy (trim line))); [exact Hhead|].
  destruct (negb (truthy (name (extractNameAndComment line)))); [exact Hhead|].
  simpl. rewrite adjustStack_take, Nat.add_1_r.
  destruct (endsWith SLASH _).
  - rewrite head_app_nonempty; [now rewrite head_take_S|].
    destruct (st_parentStack st); [discriminate|discriminate].
  - now rewrite head_take_S.
Qed.

Lemma loop_stack_head line0 processed :
  head (st_parentStack (fold_left processLine processed (initState line0)))
  = Some (rootName line0).
Proof.
  induction processed as [|line processed IH] using rev_ind; [reflexivity|].
  rewrite fold_left_app. simpl. now apply processLine_stack_head.
Qed.

Lemma processLine_named st line :
  name (extractNameAndComment line) <> [] ->
  processLine st line =
    let nc := extractNameAndComment line in
    let parentStack :=
      adjustStack (st_parentStack st) (calculateIndentationLevel line) in
    let fullPath := topOrEmpty parentStack ++ name nc in
    {| st_paths := st_paths st ++ [fullPath];
       st_comments :=
         if truthy (comment nc)
         then setProperty fullPath (comment nc) (st_comments st)
         else st_comments st;
       st_parentStack :=
         if endsWith SLASH (name nc) then parentStack ++ [fullPath]
         else parentStack |}.
Proof.
  intros Hname%truthy_true_iff. unfold processLine.
  rewrite (name_truthy_line_truthy _ Hname), Hname. reflexivity.
Qed.

Lemma processLine_unnamed st line :
  name (extractNameAndComment line) = [] -> processLine st line = st.
Proof.
  intros Hname. unfold processLine. rewrite Hname. simpl.
  now destruct (negb (truthy (trim line))).
Qed.

(** ** C7: the ancestor stack is only popped down to [level + 1] entries *)

(** C7.  In every state the loop reaches, the ancestor stack has at least
    one entry and its first entry is the root name.  For a line of level
    [level], the [while] loop pops exactly the entries beyond the first
    [level + 1]: the stack that is left is the prefix of that length, it
    still starts with the root entry, and when the stack has [level + 1]
    entries or fewer nothing is popped.  A line with a name then gets the
    path made of the top of the stack that is left and its name, so a line
    indented deeper than the stack is attached to the current top. *)
Theorem ancestor_stack_pop_discipline :
  forall (line0 : JsString.t) (processed : list JsString.t)
         (line : JsString.t),
    let st := fold_left processLine processed (initState line0) in
    let stack := st_parentStack st in
    let level := calculateIndentationLevel line in
    (1 <= length stack)%nat
    /\ head stack = Some (rootName line0)
    /\ adjustStack stack level = take (level + 1) stack
    /\ length (adjustStack stack level)
       = Nat.min (length stack) (level + 1)
    /\ (1 <= length (adjustStack stack level))%nat
    /\ head (adjustStack stack level) = Some (rootName line0)
    /\ ((length stack <= level + 1)%nat -> adjustStack stack level = stack)
    /\ (name (extractNameAndComment line) <> [] ->
        st_paths (processLine st line)
        = st_paths st
            ++ [topOrEmpty (adjustStack stack level)
                ++ name (extractNameAndComment line)]
        /\ (1 <= length (st_parentStack (processLine st line)))%nat
        /\ ((length stack <= level + 1)%nat ->
            st_paths (processLine st line)
            = st_paths st
                ++ [topOrEmpty stack ++ name (extractNameAndComment line)])).
Proof.
  intros line0 processed line st stack level.
  pose proof (loop_stack_head line0 processed) as Hhead.
  fold st in Hhead. fold stack in Hhead.
  assert (Hlen : (1 <= length stack)%nat)
    by (destruct stack; [discriminate|simpl; lia]).
  assert (Hkeep : (length stack <= level + 1)%nat ->
                  adjustStack stack level = stack)
    by (intros Hle; rewrite adjustStack_take; apply take_ge; lia).
  assert (Hadj : length (adjustStack stack level)
                 = Nat.min (length stack) (level + 1))
    by (rewrite adjustStack_take, length_take; lia).
  repeat split.
  - exact Hlen.
  - exact Hhead.
  - apply adjustStack_take.
  - exact Hadj.
  - rewrite Hadj. lia.
  - now rewrite adjustStack_take, Nat.add_1_r, head_take_S.
  - exact Hkeep.
  - rewrite (processLine_named _ _ H). reflexivity.
  - pose proof (processLine_stack_head st line _ Hhead) as Hhead'.
    destruct (st_parentStack (processLine st line));
      [discriminate|simpl; lia].
  - intros Hle. rewrite (processLine_named _ _ H). simpl.
    fold stack. fold level. now rewrite (Hkeep Hle).
Qed.

(** An over-indented line: after [project/] alone, a line of level 2 finds
    a stack of one entry, pops nothing and becomes a child of the root. *)
Lemma ancestor_stack_pop_discipline_witness :
  st_paths (processLine (fold_left processLine [] (initState (lit "project/")))
              (lit "│   │   ├── deep.js"))
  = [lit "project/"; lit "project/deep.js"].
Proof.
  pose proof (ancestor_stack_pop_discipline
                (lit "project/") [] (lit "│   │   ├── deep.js")) as H.
  cbv zeta in H.
  destruct H as (_ & _ & _ & _ & _ & _ & _ & H).
  destruct H as (_ & _ & H).
  - vm_compute. discriminate.
  - rewrite H.
    + vm_compute. reflexivity.
    + vm_compute. lia.
Defined.

(** ** C10: comments are recorded under emitted paths only *)

Lemma setProperty_is_Some (key val : JsString.t)
    (obj : gmap JsString.t JsString.t) (k : JsString.t) :
  is_Some (setProperty key val obj !! k) -> k = key \/ is_Some (obj !! k).
Proof.
  unfold setProperty. destruct (decide (key = protoKey)); [tauto|].
  destruct (decide (key = k)) as [->|Hne].
  - now left.
  - rewrite lookup_insert_ne by assumption. tauto.
Qed.

Lemma initState_commentsWithinPaths line0 :
  commentsWithinPaths (initState line0).
Proof.
  intros key. unfold initState. simpl.
  destruct (truthy (rootName line0)); simpl.
  - destruct (truthy _).
    + intros [->|H]%setProperty_is_Some; [apply list_elem_of_here|].
      rewrite lookup_empty in H. now destruct H.
    + rewrite lookup_empty. now intros [? ?].
  - rewrite lookup_empty. now intros [? ?].
Qed.

Lemma processLine_commentsWithinPaths st line :
  commentsWithinPaths st -> commentsWithinPaths (processLine st line).
Proof.
  intros Hinv.
  destruct (decide (name (extractNameAndComment line) = [])) as [E|E].
  - now rewrite processLine_unnamed.
  - rewrite (processLine_named _ _ E). intros key.
    cbv zeta. cbn [st_paths st_comments].
    rewrite elem_of_app, list_elem_of_singleton.
    destruct (truthy (comment (extractNameAndComment line))).
    + intros [->|H]%setProperty_is_Some; [now right|].
      left. now apply Hinv.
    + intros H. left. now apply Hinv.
Qed.

Lemma loop_commentsWithinPaths lines st :
  commentsWithinPaths st ->
  commentsWithinPaths (fold_left processLine lines st).
Proof.
  revert st. induction lines as [|line lines IH]; intros st Hinv; simpl.
  - exact Hinv.
  - apply IH. now apply processLine_commentsWithinPaths.
Qed.

Lemma parseLines_commentsWithinPaths lines key :
  is_Some (comments (parseLines lines) !! key) ->
  key ∈ paths (parseLines lines).
Proof.
  destruct lines as [|line0 rest]; simpl.
  - rewrite lookup_empty. now intros [? ?].
  - apply loop_commentsWithinPaths, initState_commentsWithinPaths.
Qed.

(** C10.  Every key of the comment map that [parseTreeStructure] returns
    is one of the paths it returns. *)
Theorem comments_keys_are_paths :
  forall (content key : JsString.t),
    is_Some (comments (parseTreeStructure content) !! key) ->
    key ∈ paths (parseTreeStructure content).
Proof. intros content key. apply parseLines_commentsWithinPaths. Qed.

Lemma comments_keys_are_paths_witness :
  lit "project/src/components/Button.js"
    ∈ paths (parseTreeStructure exampleTree).
Proof.
  apply (comments_keys_are_paths exampleTree
           (lit "project/src/components/Button.js")).
  exists (lit "Button component"). vm_compute. reflexivity.
Defined.

(** ** The paths the loop emits *)

Lemma processLine_paths_extend st line :
  exists emitted, st_paths (processLine st line) = st_paths st ++ emitted.
Proof.
  destruct (decide (name (extractNameAndComment line) = [])) as [E|E].
  - exists []. now rewrite processLine_unnamed, app_nil_r.
  - rewrite (processLine_named _ _ E). eexists. reflexivity.
Qed.

Lemma loop_paths_extend lines st :
  exists emitted,
    st_paths (fold_left processLine lines st) = st_paths st ++ emitted.
Proof.
  revert st. induction lines as [|line lines IH]; intros st; simpl.
  - exists []. now rewrite app_nil_r.
  - destruct (IH (processLine st line)) as [later Hlater].
    destruct (processLine_paths_extend st line) as [now_ Hnow].
    exists (now_ ++ later). now rewrite Hlater, Hnow, app_assoc.
Qed.

Lemma loop_unnamed lines st :
  (forall line, line ∈ lines -> name (extractNameAndComment line) = []) ->
  fold_left processLine lines st = st.
Proof.
  revert st. induction lines as [|line lines IH]; intros st Hall; simpl.
  - reflexivity.
  - rewrite processLine_unnamed by (apply Hall, list_elem_of_here).
    apply IH. intros l Hl. apply Hall. now apply list_elem_of_further.
Qed.

Lemma loop_named_emits before line after st :
  name (extractNameAndComment line) <> [] ->
  exists emittedAfter,
    st_paths (fold_left processLine (before ++ line :: after) st)
    = st_paths (fold_left processLine before st)
        ++ (topOrEmpty
              (adjustStack (st_parentStack (fold_left processLine before st))
                 (calculateIndentationLevel line))
            ++ name (extractNameAndComment line)) :: emittedAfter.
Proof.
  intros Hname. rewrite fold_left_app. simpl.
  destruct (loop_paths_extend after
              (processLine (fold_left processLine before st) line))
    as [emittedAfter ->].
  exists emittedAfter. rewrite (processLine_named _ _ Hname).
  cbv zeta. cbn [st_paths]. now rewrite <- app_assoc.
Qed.

Lemma comments_empty_of_no_paths (r : ParseResult) :
  (forall key, is_Some (comments r !! key) -> key ∈ paths r) ->
  paths r = [] -> r = {| paths := []; comments := ∅ |}.
Proof.
  destruct r as [ps cs]. simpl. intros Hkeys ->. f_equal.
  apply map_empty. intros key. apply eq_None_not_Some. intros H.
  apply Hkeys in H. now apply elem_of_nil in H.
Qed.

Lemma nonBlankLines_all_blank content :
  (forall line, line ∈ split LF content -> trim line = []) ->
  nonBlankLines content = [].
Proof.
  unfold nonBlankLines. induction (split LF content) as [|l ls IH];
    intros Hall; simpl; [reflexivity|].
  rewrite (Hall l) by apply list_elem_of_here. simpl.
  apply IH. intros line Hline. apply Hall. now apply list_elem_of_further.
Qed.

(** ** C9: the root name is the ancestor of every line of level 0 *)

(** C9.  The ancestor stack starts as the root name alone, whatever the
    root name is (so also when it does not end in [/]).  A later line of
    level 0 that has a name is given the path made of the root name
    followed at once by its own name, with nothing put between them; the
    paths emitted before it and after it are around that path in the
    result.  The two plain lines [a] and [b] give the paths [a] and
    [ab]. *)
Theorem level0_line_is_appended_to_root_name :
  forall (content line0 : JsString.t) (before : list JsString.t)
         (line : JsString.t) (after : list JsString.t),
    nonBlankLines content = line0 :: before ++ line :: after ->
    rootName line0 <> [] ->
    calculateIndentationLevel line = O ->
    name (extractNameAndComment line) <> [] ->
    st_parentStack (initState line0) = [rootName line0]
    /\ exists emittedBefore emittedAfter,
         st_paths (fold_left processLine before (initState line0))
         = rootName line0 :: emittedBefore
         /\ paths (parseTreeStructure content)
            = rootName line0 :: emittedBefore
                ++ (rootName line0 ++ name (extractNameAndComment line))
                :: emittedAfter.
Proof.
  intros content line0 before line after Hlines Hroot Hlevel Hname.
  split; [reflexivity|].
  destruct (loop_paths_extend before (initState line0)) as [emittedBefore Hb].
  assert (Hinit : st_paths (initState line0) = [rootName line0]).
  { unfold initState. cbn [st_paths].
    apply truthy_true_iff in Hroot. now rewrite Hroot. }
  rewrite Hinit in Hb. simpl in Hb.
  destruct (loop_named_emits before line after (initState line0) Hname)
    as [emittedAfter Hemit].
  exists emittedBefore, emittedAfter. split; [exact Hb|].
  unfold parseTreeStructure. rewrite Hlines. cbn [parseLines paths].
  rewrite Hemit, Hb, Hlevel, adjustStack_take. simpl.
  pose proof (loop_stack_head line0 before) as Hhead.
  destruct (st_parentStack (fold_left processLine before (initState line0)))
    as [|top stack]; [discriminate|].
  simpl in Hhead. injection Hhead as Htop. subst top.
  change (take 1 (rootName line0 :: stack)) with [rootName line0].
  unfold topOrEmpty. cbn [last].
  apply truthy_true_iff in Hroot. now rewrite Hroot.
Qed.

Lemma level0_line_is_appended_to_root_name_witness :
  paths (parseTreeStructure (unlines [lit "a"; lit "b"]))
  = [lit "a"; lit "ab"].
Proof.
  destruct (level0_line_is_appended_to_root_name
              (unlines [lit "a"; lit "b"]) (lit "a") [] (lit "b") [])
    as (_ & emittedBefore & emittedAfter & _ & _).
  - vm_compute. reflexivity.
  - vm_compute. discriminate.
  - vm_compute. reflexivity.
  - vm_compute. discriminate.
  - vm_compute. reflexivity.
Defined.

(** ** C4: no paths, or at least one *)

(** C4, as first stated, fails: the line [# note] is not blank, yet it
    has no name and the result has no path at all. *)
Lemma comment_only_input_has_no_path :
  nonBlankLines (lit "# note") = [lit "# note"]
  /\ trim (lit "# note") = lit "# note"
  /\ parseTreeStructure (lit "# note") = {| paths := []; comments := ∅ |}.
Proof. repeat split; vm_compute; reflexivity. Qed.

(** C4, amended.  [parseTreeStructure] is total.  When every non-blank
    line decomposes to an empty name (so, in particular, when every line
    is blank) the result has no path and no comment; when some non-blank
    line has a name the result has at least one path, and the first path
    is the root name when the first non-blank line has a name.  The empty
    text gives the empty result, and the text [not a valid structure]
    gives this one path and no comment. *)
Theorem parseTreeStructure_no_path_or_some_path :
  forall content : JsString.t,
    ((forall line, line ∈ nonBlankLines content ->
                   name (extractNameAndComment line) = []) ->
     parseTreeStructure content = {| paths := []; comments := ∅ |})
    /\ ((forall line, line ∈ split LF content -> trim line = []) ->
        parseTreeStructure content = {| paths := []; comments := ∅ |})
    /\ ((exists line, line ∈ nonBlankLines content
                      /\ name (extractNameAndComment line) <> []) ->
        paths (parseTreeStructure content) <> [])
    /\ (forall line0 rest,
           nonBlankLines content = line0 :: rest ->
           rootName line0 <> [] ->
           exists emitted,
             paths (parseTreeStructure content) = rootName line0 :: emitted)
    /\ parseTreeStructure [] = {| paths := []; comments := ∅ |}
    /\ parseTreeStructure (lit "not a valid structure")
       = {| paths := [lit "not a valid structure"]; comments := ∅ |}.
Proof.
  intros content.
  assert (Hunnamed :
    (forall line, line ∈ nonBlankLines content ->
                  name (extractNameAndComment line) = []) ->
    parseTreeStructure content = {| paths := []; comments := ∅ |}).
  { intros Hall. apply comments_empty_of_no_paths.
    - intros key. apply parseLines_commentsWithinPaths.
    - unfold parseTreeStructure.
      destruct (nonBlankLines content) as [|line0 rest]; [reflexivity|].
      cbn [parseLines paths]. rewrite loop_unnamed.
      + unfold initState. cbn [st_paths]. unfold rootName.
        rewrite (Hall line0) by apply list_elem_of_here. reflexivity.
      + intros l Hl. apply Hall. now apply list_elem_of_further. }
  split; [exact Hunnamed|]. split; [|split; [|split; [|split]]].
  - intros Hblank. apply Hunnamed.
    rewrite (nonBlankLines_all_blank content Hblank).
    intros line Hline. now apply elem_of_nil in Hline.
  - intros (line & Hin & Hname). unfold parseTreeStructure.
    destruct (nonBlankLines content) as [|line0 rest];
      [now apply elem_of_nil in Hin|].
    cbn [parseLines paths].
    apply elem_of_cons in Hin as [->|Hin].
    + destruct (loop_paths_extend rest (initState line0)) as [emitted ->].
      unfold initState. cbn [st_paths]. unfold rootName.
      apply truthy_true_iff in Hname. rewrite Hname. discriminate.
    + apply list_elem_of_split in Hin as (before & after & ->).
      destruct (loop_named_emits before line after (initState line0) Hname)
        as [emittedAfter ->].
      intros H. now apply app_eq_nil in H as [_ H].
  - intros line0 rest Hlines Hroot. unfold parseTreeStructure.
    rewrite Hlines. cbn [parseLines paths].
    destruct (loop_paths_extend rest (initState line0)) as [emitted ->].
    unfold initState. cbn [st_paths].
    apply truthy_true_iff in Hroot. rewrite Hroot. now exists emitted.
  - vm_compute. reflexivity.
  - vm_compute. reflexivity.
Qed.

Lemma parseTreeStructure_no_path_or_some_path_witness :
  paths (parseTreeStructure exampleTree) <> []
  /\ parseTreeStructure (lit "# note") = {| paths := []; comments := ∅ |}.
Proof.
  split.
  - destruct (parseTreeStructure_no_path_or_some_path exampleTree)
      as (_ & _ & Hsome & _).
    apply Hsome. exists (lit "project/"). split.
    + vm_compute. apply list_elem_of_here.
    + vm_compute. discriminate.
  - destruct (parseTreeStructure_no_path_or_some_path (lit "# note"))
      as (Hnone & _).
    apply Hnone. vm_compute. intros line Hline.
    apply list_elem_of_singleton in Hline. subst line.
    vm_compute. reflexivity.
Defined.

(** ** [path.dirname] *)

Lemma scan_bounds path i matchedSlash e :
  NodePath.scan path i matchedSlash = Some e -> (1 <= e <= i)%nat.
Proof.
  revert matchedSlash. induction i as [|i IH]; intros ms; simpl.
  - discriminate.
  - destruct (path !! S i) as [c|].
    + destruct (c =? SLASH).
      * destruct (negb ms).
        -- intros [= <-]. lia.
        -- intros H%IH. lia.
      * intros H%IH. lia.
    + intros H%IH. lia.
Qed.

Lemma startsWith_take c (s : JsString.t) e :
  (1 <= e)%nat -> startsWith c (take e s) = startsWith c s.
Proof. destruct e; [lia|]. now destruct s. Qed.

(** The directory of an absolute path is absolute again, so it is
    neither empty nor [.]. *)
Lemma dirname_rooted path :
  startsWith SLASH path = true ->
  startsWith SLASH (NodePath.dirname path) = true.
Proof.
  intros Hroot. unfold NodePath.dirname.
  destruct (length path =? 0)%nat eqn:Hlen.
  { apply Nat.eqb_eq in Hlen. destruct path; discriminate. }
  rewrite Hroot.
  destruct (NodePath.scan path (length path - 1) true) as [e|] eqn:Hscan;
    [|reflexivity].
  apply scan_bounds in Hscan.
  destruct (true && (e =? 1)%nat); [reflexivity|].
  rewrite startsWith_take by lia. exact Hroot.
Qed.

Lemma rooted_is_proper path :
  startsWith SLASH path = true ->
  truthy path && negb (bool_decide (path = [DOT])) = true.
Proof.
  destruct path as [|c path]; [discriminate|]. simpl.
  intros Hc%N.eqb_eq. subst c.
  rewrite bool_decide_eq_false_2; [reflexivity|]. discriminate.
Qed.

(** The directory of a relative path is [.] or a shorter relative
    path. *)
Lemma dirname_relative path :
  startsWith SLASH path = false ->
  NodePath.dirname path = [DOT]
  \/ ((length (NodePath.dirname path) < length path)%nat
      /\ startsWith SLASH (NodePath.dirname path) = false).
Proof.
  intros Hroot. unfold NodePath.dirname.
  destruct (length path =? 0)%nat eqn:Hlen; [now left|].
  rewrite Hroot.
  destruct (NodePath.scan path (length path - 1) true) as [e|] eqn:Hscan;
    [|now left].
  apply scan_bounds in Hscan. right. cbn [andb]. split.
  - rewrite length_take. lia.
  - now rewrite startsWith_take by lia.
Qed.

(** ** The parent loop *)

Lemma parentLoop_rooted_diverges fuel currentDir directories :
  startsWith SLASH currentDir = true ->
  parentLoop fuel currentDir directories = None.
Proof.
  revert currentDir directories.
  induction fuel as [|fuel IH]; intros cur dirs Hroot; simpl.
  - reflexivity.
  - rewrite (rooted_is_proper _ Hroot). apply IH.
    now apply dirname_rooted.
Qed.

Lemma parentLoop_relative_returns n :
  forall currentDir fuel directories,
    (length currentDir <= n)%nat ->
    startsWith SLASH currentDir = false ->
    (n + 1 <= fuel)%nat ->
    exists directories',
      parentLoop fuel currentDir directories = Some directories'.
Proof.
  induction n as [|n IH]; intros cur fuel dirs Hlen Hroot Hfuel.
  - destruct fuel as [|fuel]; [lia|]. simpl.
    destruct cur; [|simpl in Hlen; lia]. simpl. eauto.
  - destruct fuel as [|fuel]; [lia|]. simpl.
    destruct (truthy cur && negb (bool_decide (cur = [DOT]))); [|eauto].
    destruct (dirname_relative cur Hroot) as [->|[Hshort Hrel]].
    + destruct fuel as [|fuel]; [lia|]. simpl. eauto.
    + apply IH; [lia|exact Hrel|lia].
Qed.

Lemma parentLoop_more_fuel fuel :
  forall fuel' currentDir directories directories',
    parentLoop fuel currentDir directories = Some directories' ->
    (fuel <= fuel')%nat ->
    parentLoop fuel' currentDir directories = Some directories'.
Proof.
  induction fuel as [|fuel IH]; intros fuel' cur dirs dirs'; simpl.
  - discriminate.
  - intros H Hle. destruct fuel' as [|fuel']; [lia|]. simpl.
    destruct (truthy cur && negb (bool_decide (cur = [DOT]))).
    + apply (IH fuel'); [exact H|lia].
    + exact H.
Qed.

Lemma properDir_iff dir :
  truthy dir && negb (bool_decide (dir = [DOT])) = true <-> properDir dir.
Proof.
  unfold properDir. rewrite andb_true_iff, truthy_true_iff, negb_true_iff.
  rewrite bool_decide_eq_false. tauto.
Qed.

Lemma setAdd_elem (dir : JsString.t) directories d :
  d ∈ setAdd dir directories <-> d ∈ directories \/ d = dir.
Proof.
  unfold setAdd. destruct (decide (dir ∈ directories)) as [Hin|Hout].
  - split; [tauto|]. intros [H| ->]; assumption.
  - now rewrite elem_of_app, list_elem_of_singleton.
Qed.

Lemma setAdd_NoDup (dir : JsString.t) directories :
  NoDup directories -> NoDup (setAdd dir directories).
Proof.
  unfold setAdd. intros Hnd.
  destruct (decide (dir ∈ directories)) as [Hin|Hout]; [exact Hnd|].
  apply NoDup_app. split; [exact Hnd|]. split.
  - intros x Hx ->%list_elem_of_singleton. contradiction.
  - apply NoDup_singleton.
Qed.

Lemma dirChain_step dir d :
  properDir dir ->
  dirChain dir d <-> d = dir ++ [SLASH] \/ dirChain (NodePath.dirname dir) d.
Proof.
  intros Hproper. unfold dirChain. split.
  - intros (k & Hall & ->). destruct k as [|k]; [now left|]. right.
    exists k. split.
    + intros j Hj. rewrite <- Nat.iter_succ_r. apply Hall. lia.
    + now rewrite <- Nat.iter_succ_r.
  - intros [->|(k & Hall & ->)].
    + exists O. split; [|reflexivity].
      intros j Hj. replace j with O by lia. exact Hproper.
    + exists (S k). split.
      * intros [|j] Hj; [exact Hproper|].
        rewrite Nat.iter_succ_r. apply Hall. lia.
      * now rewrite Nat.iter_succ_r.
Qed.

Lemma dirChain_improper dir d : ~ properDir dir -> ~ dirChain dir d.
Proof. intros Hnot (k & Hall & _). apply Hnot, (Hall O). lia. Qed.

Lemma parentLoop_elem fuel :
  forall currentDir directories directories',
    parentLoop fuel currentDir directories = Some directories' ->
    forall d, d ∈ directories' <-> d ∈ directories \/ dirChain currentDir d.
Proof.
  induction fuel as [|fuel IH]; intros cur dirs dirs'; simpl;
    [discriminate|].
  destruct (truthy cur && negb (bool_decide (cur = [DOT]))) eqn:Hcond.
  - apply properDir_iff in Hcond. intros Hloop d.
    rewrite (IH _ _ _ Hloop), setAdd_elem, (dirChain_step cur d Hcond).
    tauto.
  - intros [= <-] d. split; [tauto|]. intros [H|H]; [exact H|].
    exfalso. revert H. apply dirChain_improper.
    rewrite <- properDir_iff, Hcond. discriminate.
Qed.

Lemma parentLoop_NoDup fuel :
  forall currentDir directories directories',
    parentLoop fuel currentDir directories = Some directories' ->
    NoDup directories -> NoDup directories'.
Proof.
  induction fuel as [|fuel IH]; intros cur dirs dirs'; simpl;
    [discriminate|].
  destruct (truthy cur && negb (bool_decide (cur = [DOT]))).
  - intros Hloop Hnd. apply (IH _ _ _ Hloop). now apply setAdd_NoDup.
  - now intros [= <-].
Qed.

Lemma endsWith_snoc c (s : JsString.t) : endsWith c (s ++ [c]) = true.
Proof. unfold endsWith. rewrite last_snoc. apply N.eqb_refl. Qed.

Lemma dirChain_endsWith dir d : dirChain dir d -> endsWith SLASH d = true.
Proof. intros (k & _ & ->). apply endsWith_snoc. Qed.

(** ** The loop over the paths *)

Lemma classifyLoop_spec fuel paths :
  forall dirs files dirs' files',
    classifyLoop fuel paths (dirs, files) = Some (dirs', files') ->
    files' = files ++ List.filter isFile paths
    /\ (forall d,
           d ∈ dirs' <->
           d ∈ dirs
           \/ (d ∈ paths /\ endsWith SLASH d = true)
           \/ (exists filePath,
                  filePath ∈ paths /\ endsWith SLASH filePath = false
                  /\ impliedAncestor filePath d))
    /\ (NoDup dirs -> NoDup dirs').
Proof.
  induction paths as [|p paths IH]; intros dirs files dirs' files'; simpl.
  - intros [= <- <-]. rewrite app_nil_r. split; [reflexivity|].
    split; [|tauto]. intros d. split; [tauto|].
    intros [H|[[H _]|(f & H & _)]]; [exact H| |];
      now apply elem_of_nil in H.
  - unfold classifyPath, isFile. cbn [fst snd].
    destruct (endsWith SLASH p) eqn:Hp; cbn [negb].
    + intros (-> & Hdirs & Hnd)%IH. split; [reflexivity|]. split.
      * intros d. rewrite Hdirs, setAdd_elem. split.
        -- intros [[H| ->]|[[H E]|(f & H & E & A)]].
           ++ now left.
           ++ right. left. split; [apply list_elem_of_here|exact Hp].
           ++ right. left. split; [now apply list_elem_of_further|exact E].
           ++ right. right. exists f.
              split; [now apply list_elem_of_further|now split].
        -- intros [H|[[H E]|(f & H & E & A)]].
           ++ left. now left.
           ++ apply elem_of_cons in H as [->|H]; [left; now right|].
              right. left. now split.
           ++ apply elem_of_cons in H as [->|H]; [congruence|].
              right. right. exists f. now repeat split.
      * intros H. apply Hnd. now apply setAdd_NoDup.
    + destruct (parentLoop fuel (NodePath.dirname p) dirs) as [dirs1|]
        eqn:Hloop; [|discriminate].
      intros (-> & Hdirs & Hnd)%IH. split; [now rewrite <- app_assoc|].
      split.
      * intros d. rewrite Hdirs, (parentLoop_elem _ _ _ _ Hloop). split.
        -- intros [[H|H]|[[H E]|(f & H & E & A)]].
           ++ now left.
           ++ right. right. exists p.
              split; [apply list_elem_of_here|now split].
           ++ right. left. split; [now apply list_elem_of_further|exact E].
           ++ right. right. exists f.
              split; [now apply list_elem_of_further|now split].
        -- intros [H|[[H E]|(f & H & E & A)]].
           ++ left. now left.
           ++ apply elem_of_cons in H as [->|H]; [congruence|].
              right. left. now split.
           ++ apply elem_of_cons in H as [->|H]; [left; now right|].
              right. right. exists f. now repeat split.
      * intros H. apply Hnd. now apply (parentLoop_NoDup _ _ _ _ Hloop).
Qed.

Lemma classifyLoop_rooted_file_diverges fuel paths :
  forall acc filePath,
    filePath ∈ paths ->
    endsWith SLASH filePath = false ->
    startsWith SLASH filePath = true ->
    classifyLoop fuel paths acc = None.
Proof.
  induction paths as [|p paths IH]; intros acc f Hin Hfile Hroot.
  - now apply elem_of_nil in Hin.
  - simpl. apply elem_of_cons in Hin as [<-|Hin].
    + unfold classifyPath. rewrite Hfile.
      rewrite parentLoop_rooted_diverges by now apply dirname_rooted.
      reflexivity.
    + destruct (classifyPath fuel acc p); [|reflexivity].
      now apply (IH _ f).
Qed.

Lemma classifyLoop_relative_returns fuel paths :
  (forall p, p ∈ paths -> endsWith SLASH p = false ->
             startsWith SLASH p = false) ->
  (forall p, p ∈ paths -> (length p + 2 <= fuel)%nat) ->
  forall acc, exists acc', classifyLoop fuel paths acc = Some acc'.
Proof.
  induction paths as [|p paths IH]; intros Hrel Hfuel acc; simpl; [eauto|].
  assert (Hstep : exists acc1, classifyPath fuel acc p = Some acc1).
  { unfold classifyPath. destruct (endsWith SLASH p) eqn:Hp; [eauto|].
    specialize (Hrel p (list_elem_of_here _ _) Hp).
    specialize (Hfuel p (list_elem_of_here _ _)).
    destruct (parentLoop_relative_returns (S (length p))
                (NodePath.dirname p) fuel acc.1) as [dirs' ->]; [| |lia|eauto].
    - destruct (dirname_relative p Hrel) as [->|[Hlt _]]; simpl; lia.
    - destruct (dirname_relative p Hrel) as [->|[_ Hr]];
        [reflexivity|exact Hr]. }
  destruct Hstep as [acc1 ->]. apply IH.
  - intros q Hq. apply Hrel. now apply list_elem_of_further.
  - intros q Hq. apply Hfuel. now apply list_elem_of_further.
Qed.

Lemma classifyLoop_more_fuel fuel fuel' paths :
  (fuel <= fuel')%nat ->
  forall acc acc',
    classifyLoop fuel paths acc = Some acc' ->
    classifyLoop fuel' paths acc = Some acc'.
Proof.
  intros Hle. induction paths as [|p paths IH]; intros acc acc'; simpl.
  - tauto.
  - unfold classifyPath. destruct (endsWith SLASH p); [apply IH|].
    destruct (parentLoop fuel (NodePath.dirname p) acc.1) as [dirs1|]
      eqn:Hloop; [|discriminate].
    rewrite (parentLoop_more_fuel _ _ _ _ _ Hloop Hle). apply IH.
Qed.

(** The number of turns that is enough for the parent loops of a list of
    relative paths. *)
Lemma enough_fuel_for (paths : list JsString.t) :
  forall p, p ∈ paths ->
            (length p + 2 <= max_list (length <$> paths) + 2)%nat.
Proof.
  intros p Hp. apply Nat.add_le_mono_r.
  apply max_list_elem_of_le, list_elem_of_fmap. now exists p.
Qed.

(** ** The sort *)

Lemma insertByDepth_Permutation a sorted :
  Permutation (insertByDepth a sorted) (a :: sorted).
Proof.
  induction sorted as [|b sorted IH]; simpl; [reflexivity|].
  destruct (depth b <=? depth a)%nat; [|reflexivity].
  rewrite IH. apply perm_swap.
Qed.

Lemma insertByDepth_sorted a sorted :
  StronglySorted depthOrder sorted ->
  StronglySorted depthOrder (insertByDepth a sorted).
Proof.
  induction 1 as [|b sorted Hsorted IH Hb]; simpl.
  - repeat constructor.
  - destruct (Nat.leb_spec (depth b) (depth a)) as [Hle|Hlt].
    + constructor; [exact IH|].
      rewrite insertByDepth_Permutation. now constructor.
    + constructor; [now constructor|]. constructor.
      * unfold depthOrder. lia.
      * eapply Forall_impl; [exact Hb|]. unfold depthOrder.
        intros c Hc. simpl in Hc. lia.
Qed.

(** The sort is stable: the elements of any one depth keep their
    order. *)
Lemma insertByDepth_stable a sorted n :
  StronglySorted depthOrder sorted ->
  List.filter (fun d => (depth d =? n)%nat) (insertByDepth a sorted)
  = List.filter (fun d => (depth d =? n)%nat) sorted
      ++ (if (depth a =? n)%nat then [a] else []).
Proof.
  induction 1 as [|b sorted Hsorted IH Hb]; simpl; [reflexivity|].
  destruct (Nat.leb_spec (depth b) (depth a)) as [Hle|Hlt].
  - simpl. rewrite IH. now destruct (depth b =? n)%nat.
  - simpl. destruct (Nat.eqb_spec (depth a) n) as [Ha|Ha].
    + destruct (Nat.eqb_spec (depth b) n) as [Hbn|_]; [lia|].
      assert (Hnone : List.filter (fun d => (depth d =? n)%nat) sorted = []).
      { clear IH Hsorted. induction Hb as [|c sorted Hc _ IHs];
          simpl; [reflexivity|].
        unfold depthOrder in Hc.
        destruct (Nat.eqb_spec (depth c) n); [lia|exact IHs]. }
      now rewrite Hnone.
    + now rewrite app_nil_r.
Qed.

Lemma sortLoop_spec dirs :
  forall sorted,
    StronglySorted depthOrder sorted ->
    StronglySorted depthOrder
      (fold_left (fun sorted a => insertByDepth a sorted) dirs sorted)
    /\ Permutation
         (fold_left (fun sorted a => insertByDepth a sorted) dirs sorted)
         (sorted ++ dirs)
    /\ forall n,
         List.filter (fun d => (depth d =? n)%nat)
           (fold_left (fun sorted a => insertByDepth a sorted) dirs sorted)
         = List.filter (fun d => (depth d =? n)%nat) (sorted ++ dirs).
Proof.
  induction dirs as [|a dirs IH]; intros sorted Hsorted; simpl.
  - rewrite app_nil_r. now repeat split.
  - destruct (IH (insertByDepth a sorted)) as (Hs & Hp & Hf).
    { now apply insertByDepth_sorted. }
    split; [exact Hs|]. split.
    + rewrite Hp, insertByDepth_Permutation. simpl.
      apply Permutation_middle.
    + intros n. rewrite Hf, !List.filter_app.
      rewrite (insertByDepth_stable a sorted n Hsorted).
      rewrite <- app_assoc. simpl. now destruct (depth a =? n)%nat.
Qed.

Lemma sortByDepth_spec dirs :
  StronglySorted depthOrder (sortByDepth dirs)
  /\ Permutation (sortByDepth dirs) dirs
  /\ forall n,
       List.filter (fun d => (depth d =? n)%nat) (sortByDepth dirs)
       = List.filter (fun d => (depth d =? n)%nat) dirs.
Proof. apply (sortLoop_spec dirs []). constructor. Qed.

Lemma StronglySorted_lookup {A} (R : A -> A -> Prop) (l : list A) :
  StronglySorted R l ->
  forall i j a b,
    (i < j)%nat -> l !! i = Some a -> l !! j = Some b -> R a b.
Proof.
  induction 1 as [|x l Hl IH Hx]; intros i j a b Hij Hi Hj.
  - discriminate.
  - destruct j as [|j]; [lia|]. destruct i as [|i]; simpl in *.
    + injection Hi as <-. rewrite Forall_forall in Hx. apply Hx.
      now apply (list_elem_of_lookup_2 _ j).
    + apply (IH i j); [lia|assumption|assumption].
Qed.

(** ** When the classifier returns *)

Lemma separate_returns_iff paths :
  (exists fuel r, separateDirectoriesAndFiles fuel paths = Some r)
  <-> (forall p, p ∈ paths -> endsWith SLASH p = false ->
                 startsWith SLASH p = false).
Proof.
  unfold separateDirectoriesAndFiles. split.
  - intros (fuel & r & Hr) p Hp Hfile.
    destruct (startsWith SLASH p) eqn:Hroot; [|reflexivity].
    rewrite (classifyLoop_rooted_file_diverges fuel paths _ p Hp Hfile Hroot)
      in Hr. discriminate.
  - intros Hrel.
    destruct (classifyLoop_relative_returns _ paths Hrel
                (enough_fuel_for paths) ([], [])) as [[dirs fs] Hloop].
    eexists _, _. rewrite Hloop. reflexivity.
Qed.

Lemma separate_more_fuel fuel fuel' paths r :
  (fuel <= fuel')%nat ->
  separateDirectoriesAndFiles fuel paths = Some r ->
  separateDirectoriesAndFiles fuel' paths = Some r.
Proof.
  unfold separateDirectoriesAndFiles. intros Hle.
  destruct (classifyLoop fuel paths ([], [])) as [[dirs fs]|] eqn:Hloop;
    [|discriminate].
  now rewrite (classifyLoop_more_fuel _ _ _ Hle _ _ Hloop).
Qed.

(** ** C2: the parent loop of a file with an absolute path never ends *)

(** C2.  The parent loop does not end on every path: it ends on the
    relative ones only.  The one-line text [/a] parses to the single path
    [/a]; [path.dirname] maps [/a] to [/] and [/] to itself, a string
    that is neither empty nor [.], so the loop condition never turns
    false and no number of turns lets the parent loop, and with it
    [separateDirectoriesAndFiles], return.  In general the classifier
    returns exactly on the path lists in which no file (no path that does
    not end in [/]) starts with [/]. *)
Theorem rooted_file_parent_loop_never_ends :
  paths (parseTreeStructure (lit "/a")) = [lit "/a"]
  /\ NodePath.dirname (lit "/a") = lit "/"
  /\ NodePath.dirname (lit "/") = lit "/"
  /\ (forall fuel directories,
         parentLoop fuel (NodePath.dirname (lit "/a")) directories = None)
  /\ (forall fuel, separateDirectoriesAndFiles fuel [lit "/a"] = None)
  /\ (forall paths : list JsString.t,
         (exists fuel r, separateDirectoriesAndFiles fuel paths = Some r)
         <-> (forall p, p ∈ paths -> endsWith SLASH p = false ->
                        startsWith SLASH p = false)).
Proof.
  split; [vm_compute; reflexivity|].
  split; [vm_compute; reflexivity|].
  split; [vm_compute; reflexivity|].
  split; [|split].
  - intros fuel dirs. now apply parentLoop_rooted_diverges.
  - intros fuel. unfold separateDirectoriesAndFiles.
    rewrite (classifyLoop_rooted_file_diverges fuel _ _ (lit "/a"));
      [reflexivity|apply list_elem_of_here|reflexivity|reflexivity].
  - apply separate_returns_iff.
Qed.

(** ** C6: the partition and the order of the directories *)

Lemma depth_counts_slashes a : depth a = count_occ N.eq_dec a SLASH.
Proof. apply matchAll_length. Qed.

Lemma sorted_by_slashes dirs :
  StronglySorted depthOrder dirs ->
  StronglySorted
    (fun a b => (count_occ N.eq_dec a SLASH <= count_occ N.eq_dec b SLASH)%nat)
    dirs.
Proof.
  induction 1 as [|a dirs _ IH Ha]; constructor; [exact IH|].
  eapply Forall_impl; [exact Ha|]. intros b Hb. unfold depthOrder in Hb.
  now rewrite <- !depth_counts_slashes.
Qed.

(** C6.  Not every path list is partitioned: on the list [a/], [b.js],
    [/x] the classifier never returns, whatever the number of turns, and
    it returns exactly on the lists in which no file (no path that does
    not end in [/]) starts with [/]; on those it returns the same result
    for any number of turns from the length of the longest path plus two
    on.  Whenever it returns, the files of the result are the input
    paths that do not end in [/], in the order of the input; an input
    path is among the directories exactly when it ends in [/]; the
    directories are the input paths that end in [/] together with the
    ancestors the parent loop derives from the files, each once; and they
    are sorted by the number of [/] characters they hold, so that one
    with fewer [/] stands before one with more. *)
Theorem separateDirectoriesAndFiles_partitions_and_sorts :
  (forall fuel,
      separateDirectoriesAndFiles fuel [lit "a/"; lit "b.js"; lit "/x"]
      = None)
  /\ forall paths : list JsString.t,
      (forall fuel r,
          separateDirectoriesAndFiles fuel paths = Some r ->
          files r = List.filter isFile paths
          /\ (forall p, p ∈ paths ->
                        (p ∈ directories r <-> endsWith SLASH p = true))
          /\ (forall d,
                 d ∈ directories r <->
                 (d ∈ paths /\ endsWith SLASH d = true)
                 \/ (exists filePath,
                        filePath ∈ paths /\ endsWith SLASH filePath = false
                        /\ impliedAncestor filePath d))
          /\ NoDup (directories r)
          /\ StronglySorted
               (fun a b => (count_occ N.eq_dec a SLASH
                            <= count_occ N.eq_dec b SLASH)%nat)
               (directories r)
          /\ (forall i j a b,
                 directories r !! i = Some a ->
                 directories r !! j = Some b ->
                 (count_occ N.eq_dec a SLASH
                  < count_occ N.eq_dec b SLASH)%nat ->
                 (i < j)%nat))
      /\ ((exists fuel r, separateDirectoriesAndFiles fuel paths = Some r)
          <-> (forall p, p ∈ paths -> endsWith SLASH p = false ->
                         startsWith SLASH p = false))
      /\ ((forall p, p ∈ paths -> endsWith SLASH p = false ->
                     startsWith SLASH p = false) ->
          exists r,
            forall fuel,
              (max_list (length <$> paths) + 2 <= fuel)%nat ->
              separateDirectoriesAndFiles fuel paths = Some r).
Proof.
  split.
  { intros fuel. unfold separateDirectoriesAndFiles.
    rewrite (classifyLoop_rooted_file_diverges fuel _ _ (lit "/x"));
      [reflexivity| |reflexivity|reflexivity].
    do 2 apply list_elem_of_further. apply list_elem_of_here. }
  intros paths. split; [|split].
  - intros fuel r Hr. unfold separateDirectoriesAndFiles in Hr.
    destruct (classifyLoop fuel paths ([], [])) as [[dirs fs]|] eqn:Hloop;
      [|discriminate].
    injection Hr as <-. cbn [directories files].
    apply classifyLoop_spec in Hloop as (-> & Hdirs & Hnd).
    destruct (sortByDepth_spec dirs) as (Hsorted & Hperm & _).
    apply sorted_by_slashes in Hsorted.
    assert (Hmem : forall d,
      d ∈ sortByDepth dirs <->
      (d ∈ paths /\ endsWith SLASH d = true)
      \/ (exists filePath,
             filePath ∈ paths /\ endsWith SLASH filePath = false
             /\ impliedAncestor filePath d)).
    { intros d. rewrite Hperm, Hdirs. split; [|tauto].
      intros [H|H]; [now apply elem_of_nil in H|exact H]. }
    split; [reflexivity|]. split; [|split; [exact Hmem|split; [|split]]].
    + intros p Hp. rewrite Hmem. split; [|tauto].
      intros [[_ H]|(f & _ & _ & H)]; [exact H|].
      now apply dirChain_endsWith in H.
    + rewrite Hperm. apply Hnd, NoDup_nil_2.
    + exact Hsorted.
    + intros i j a b Hi Hj Hlt.
      destruct (Nat.lt_trichotomy i j) as [H|[->|H]]; [exact H| |].
      * rewrite Hi in Hj. injection Hj as ->. lia.
      * pose proof (StronglySorted_lookup _ _ Hsorted j i b a H Hj Hi) as Hba.
        simpl in Hba. lia.
  - apply separate_returns_iff.
  - intros Hrel.
    unfold separateDirectoriesAndFiles.
    destruct (classifyLoop_relative_returns _ paths Hrel
                (enough_fuel_for paths) ([], [])) as [[dirs fs] Hloop].
    exists {| directories := sortByDepth dirs; files := fs |}.
    intros fuel Hfuel.
    now rewrite (classifyLoop_more_fuel _ _ _ Hfuel _ _ Hloop).
Qed.

(** A path list that is not in order: the directories come out with the
    shallowest first, the files in their order. *)
Lemma separateDirectoriesAndFiles_partitions_and_sorts_witness :
  separateDirectoriesAndFiles 20
    [lit "a/b/c/"; lit "x.js"; lit "a/"; lit "a/b/d.js"]
  = Some {| directories := [lit "a/"; lit "a/b/"; lit "a/b/c/"];
            files := [lit "x.js"; lit "a/b/d.js"] |}
  /\ ([lit "x.js"; lit "a/b/d.js"]
      = List.filter isFile
          [lit "a/b/c/"; lit "x.js"; lit "a/"; lit "a/b/d.js"]
      /\ StronglySorted
           (fun a b => (count_occ N.eq_dec a SLASH
                        <= count_occ N.eq_dec b SLASH)%nat)
           [lit "a/"; lit "a/b/"; lit "a/b/c/"])
  /\ exists r,
       forall fuel,
         (max_list (length <$>
                      [lit "a/b/c/"; lit "x.js"; lit "a/"; lit "a/b/d.js"])
          + 2 <= fuel)%nat ->
         separateDirectoriesAndFiles fuel
           [lit "a/b/c/"; lit "x.js"; lit "a/"; lit "a/b/d.js"]
         = Some r.
Proof.
  assert (Hrun :
    separateDirectoriesAndFiles 20
      [lit "a/b/c/"; lit "x.js"; lit "a/"; lit "a/b/d.js"]
    = Some {| directories := [lit "a/"; lit "a/b/"; lit "a/b/c/"];
              files := [lit "x.js"; lit "a/b/d.js"] |})
    by (vm_compute; reflexivity).
  destruct separateDirectoriesAndFiles_partitions_and_sorts as [_ Hall].
  destruct (Hall [lit "a/b/c/"; lit "x.js"; lit "a/"; lit "a/b/d.js"])
    as (Hresult & _ & Hreturns).
  split; [exact Hrun|]. split.
  - destruct (Hresult 20%nat _ Hrun) as (Hfiles & _ & _ & _ & Hsorted & _).
    split; [exact Hfiles|exact Hsorted].
  - apply Hreturns. intros p Hp _.
    repeat (apply elem_of_cons in Hp as [->|Hp]; [vm_compute; reflexivity|]).
    now apply elem_of_nil in Hp.
Defined.

(** ** Splitting and stripping *)

Lemma split_no_sep sep s : ~ In sep s -> split sep s = [s].
Proof.
  induction s as [|c s IH]; simpl; [reflexivity|]. intros Hnot.
  destruct (N.eqb_spec c sep) as [->|Hne]; [tauto|].
  rewrite IH by tauto. reflexivity.
Qed.

Lemma split_at_first_sep sep before after :
  ~ In sep before ->
  split sep (before ++ sep :: after) = before :: split sep after.
Proof.
  induction before as [|c before IH]; simpl; intros Hnot.
  - now rewrite N.eqb_refl.
  - destruct (N.eqb_spec c sep) as [->|Hne]; [tauto|].
    rewrite IH by tauto. reflexivity.
Qed.

Lemma dropWhile_app_all p s r :
  forallb p s = true -> dropWhile p (s ++ r) = dropWhile p r.
Proof.
  induction s as [|c s IH]; simpl; [reflexivity|].
  intros [Hc Hs]%andb_true_iff. rewrite Hc. now apply IH.
Qed.

Lemma dropWhile_app_stop p s r c s' :
  dropWhile p s = c :: s' -> dropWhile p (s ++ r) = c :: s' ++ r.
Proof.
  induction s as [|d s IH]; simpl; [discriminate|].
  destruct (p d); [exact IH|]. now intros [= -> ->].
Qed.

Lemma dropWhile_stop p c s : p c = false -> dropWhile p (c :: s) = c :: s.
Proof. intros H. simpl. now rewrite H. Qed.

Lemma dropWhile_forallb p q s :
  forallb q s = true -> forallb q (dropWhile p s) = true.
Proof.
  induction s as [|c s IH]; simpl; [reflexivity|].
  intros [Hc Hs]%andb_true_iff. destruct (p c); [now apply IH|].
  simpl. now rewrite Hc, Hs.
Qed.

Lemma trim_forallb q s : forallb q s = true -> forallb q (trim s) = true.
Proof.
  intros H. unfold trim, trimEnd, trimStart.
  rewrite forallb_rev_eq. apply dropWhile_forallb.
  rewrite forallb_rev_eq. now apply dropWhile_forallb.
Qed.

(** The last character of a trimmed string is no white space. *)
Lemma trimEnd_idempotent s : trimEnd (trimEnd s) = trimEnd s.
Proof.
  unfold trimEnd. rewrite rev_involutive. f_equal.
  destruct (dropWhile isWhiteSpace (rev s)) as [|c s'] eqn:E;
    [reflexivity|].
  apply dropWhile_head in E. now apply dropWhile_stop.
Qed.

Lemma trimEnd_head s c s' :
  s = c :: s' -> isWhiteSpace c = false ->
  exists s'', trimEnd s = c :: s''.
Proof.
  intros -> Hc. unfold trimEnd. simpl.
  destruct (forallb isWhiteSpace (rev s')) eqn:Hall.
  - rewrite dropWhile_app_all by exact Hall.
    rewrite dropWhile_stop by exact Hc. now exists [].
  - destruct (dropWhile isWhiteSpace (rev s')) as [|d t] eqn:E.
    + apply dropWhile_nil_iff in E. congruence.
    + rewrite (dropWhile_app_stop _ _ _ _ _ E).
      change (d :: t ++ [c]) with ((d :: t) ++ [c]).
      rewrite rev_app_distr. simpl. eauto.
Qed.

Lemma trim_idempotent s : trim (trim s) = trim s.
Proof.
  unfold trim at 1. unfold trimStart.
  assert (Hstart : dropWhile isWhiteSpace (trim s) = trim s).
  { unfold trim, trimStart.
    destruct (dropWhile isWhiteSpace s) as [|c s'] eqn:E; [reflexivity|].
    apply dropWhile_head in E.
    destruct (trimEnd_head (c :: s') c s' eq_refl E) as [s'' ->].
    now apply dropWhile_stop. }
  rewrite Hstart. unfold trim. apply trimEnd_idempotent.
Qed.

Lemma spaceOrBar_not_hash s : forallb isSpaceOrBar s = true -> ~ In HASH s.
Proof.
  intros Hall Hin. rewrite forallb_forall in Hall.
  apply Hall in Hin. vm_compute in Hin. discriminate.
Qed.

Lemma stripTreePrefix_no_branch s :
  forallb isSpaceOrBar s = true -> stripTreePrefix s = s.
Proof.
  intros Hall. unfold stripTreePrefix.
  apply dropWhile_nil_iff in Hall. now rewrite Hall.
Qed.

Lemma extract_without_hash line :
  ~ In HASH line ->
  extractNameAndComment line
  = {| name := trim (stripTreePrefix (trim line)); comment := [] |}.
Proof.
  intros Hnot. unfold extractNameAndComment.
  now rewrite (split_no_sep _ _ Hnot).
Qed.

Lemma isBranch_cases b :
  isBranch b = true -> isSpaceOrBar b = false /\ isWhiteSpace b = false
                       /\ b <> HASH.
Proof.
  unfold isBranch. intros [H|H]%orb_true_iff; apply N.eqb_eq in H; subst b;
    repeat split; discriminate.
Qed.

Lemma trim_glyph_line run b tail :
  forallb isSpaceOrBar run = true ->
  isBranch b = true ->
  forallb isWhiteSpace tail = true ->
  trim (run ++ b :: DASH :: DASH :: tail)
  = dropWhile isWhiteSpace run ++ [b; DASH; DASH].
Proof.
  intros Hrun Hb Htail. destruct (isBranch_cases b Hb) as (_ & Hbws & _).
  unfold trim.
  assert (Hstart : trimStart (run ++ b :: DASH :: DASH :: tail)
                   = dropWhile isWhiteSpace run ++ b :: DASH :: DASH :: tail).
  { unfold trimStart.
    destruct (dropWhile isWhiteSpace run) as [|c s'] eqn:E.
    - apply dropWhile_nil_iff in E.
      rewrite dropWhile_app_all by exact E. now apply dropWhile_stop.
    - now apply dropWhile_app_stop. }
  rewrite Hstart. unfold trimEnd.
  change (b :: DASH :: DASH :: tail) with ([b; DASH; DASH] ++ tail).
  rewrite app_assoc, rev_app_distr.
  rewrite dropWhile_app_all by (now rewrite forallb_rev_eq).
  rewrite rev_app_distr. simpl.
  now rewrite rev_involutive, <- !app_assoc.
Qed.

(** ** C3: a line of glyphs only *)

(** C3.  A line made of white space and [│], then one branch glyph, then
    white space, has the empty name.  A line of glyphs without a branch
    glyph has not: the pattern of the source asks for one, so a line of
    white space and [│] alone is left as it is and its trimmed text is
    its name.  The spacer line [│] gets the name [│], and a tree with
    such a line gets the path [project/src/│]. *)
Theorem bars_without_branch_glyph_are_kept_as_name :
  (forall (run : JsString.t) (b : N) (tail : JsString.t),
      forallb isSpaceOrBar run = true ->
      isBranch b = true ->
      forallb isWhiteSpace tail = true ->
      name (extractNameAndComment (run ++ b :: DASH :: DASH :: tail)) = [])
  /\ (forall line : JsString.t,
         forallb isSpaceOrBar line = true ->
         name (extractNameAndComment line) = trim line)
  /\ extractNameAndComment (lit "│") = {| name := lit "│"; comment := [] |}
  /\ paths (parseTreeStructure spacerTree)
     = [ lit "project/"; lit "project/src/"; lit "project/src/a.js";
         lit "project/src/│"; lit "project/b.js" ].
Proof.
  split; [|split; [|split]].
  - intros run b tail Hrun Hb Htail.
    destruct (isBranch_cases b Hb) as (Hbsb & _ & Hbh).
    rewrite extract_without_hash.
    + cbn [name]. rewrite (trim_glyph_line run b tail Hrun Hb Htail).
      unfold stripTreePrefix.
      rewrite dropWhile_app_all by (now apply dropWhile_forallb).
      rewrite dropWhile_stop by exact Hbsb.
      rewrite Hb, !N.eqb_refl. reflexivity.
    + intros [Hin|[Heq|[Hin|[Hin|Hin]]]]%in_app_iff;
        [now apply (spaceOrBar_not_hash run)|congruence
        |discriminate|discriminate|].
      rewrite forallb_forall in Htail. apply Htail in Hin.
      vm_compute in Hin. discriminate.
  - intros line Hline.
    rewrite extract_without_hash by now apply spaceOrBar_not_hash.
    cbn [name]. rewrite stripTreePrefix_no_branch by now apply trim_forallb.
    apply trim_idempotent.
  - vm_compute. reflexivity.
  - vm_compute. reflexivity.
Qed.

(** ** C5: the comment *)

(** C5.  The name comes from the text before the first [#], and a line
    without [#] has the empty comment.  A line with one [#] has all the
    text behind it, trimmed, as its comment.  On a line with more than
    one [#], [split] cuts at every [#] and the comment is the second part
    only: the comment ends before the second [#] and what follows is
    dropped; [file.js # see issue #12] gets the comment [see issue], not
    [see issue #12]. *)
Theorem comment_ends_at_second_hash :
  (forall line : JsString.t,
      ~ In HASH line ->
      extractNameAndComment line
      = {| name := trim (stripTreePrefix (trim line)); comment := [] |})
  /\ (forall before after : JsString.t,
         ~ In HASH before -> ~ In HASH after ->
         extractNameAndComment (before ++ HASH :: after)
         = {| name := trim (stripTreePrefix (trim before));
              comment := trim after |})
  /\ (forall before between rest : JsString.t,
         ~ In HASH before -> ~ In HASH between ->
         extractNameAndComment (before ++ HASH :: between ++ HASH :: rest)
         = {| name := trim (stripTreePrefix (trim before));
              comment := trim between |})
  /\ extractNameAndComment (lit "file.js # see issue #12")
     = {| name := lit "file.js"; comment := lit "see issue" |}
  /\ trim (lit " see issue #12") = lit "see issue #12".
Proof.
  split; [|split; [|split; [|split]]].
  - apply extract_without_hash.
  - intros before after Hb Ha. unfold extractNameAndComment.
    rewrite (split_at_first_sep _ _ _ Hb), (split_no_sep _ _ Ha).
    reflexivity.
  - intros before between rest Hb Hm. unfold extractNameAndComment.
    rewrite (split_at_first_sep _ _ _ Hb), (split_at_first_sep _ _ _ Hm).
    reflexivity.
  - vm_compute. reflexivity.
  - vm_compute. reflexivity.
Qed.

(** * Further properties of the parser *)

(** ** What a decomposed line looks like *)

Lemma dropWhile_In p s c : In c (dropWhile p s) -> In c s.
Proof.
  induction s as [|d s IH]; simpl; [tauto|].
  destruct (p d); [intros H; right; now apply IH|tauto].
Qed.

Lemma trim_In s c : In c (trim s) -> In c s.
Proof.
  unfold trim, trimEnd, trimStart. rewrite <- in_rev.
  intros H%dropWhile_In. rewrite <- in_rev in H.
  now apply dropWhile_In in H.
Qed.

Lemma stripTreePrefix_In s c : In c (stripTreePrefix s) -> In c s.
Proof.
  unfold stripTreePrefix.
  destruct (dropWhile isSpaceOrBar s) as [|b [|d1 [|d2 rest]]] eqn:E;
    try tauto.
  destruct (isBranch b && (d1 =? DASH) && (d2 =? DASH)); [|tauto].
  intros H%dropWhile_In. apply (dropWhile_In isSpaceOrBar). rewrite E.
  simpl. tauto.
Qed.

Lemma split_parts_no_sep sep s part :
  In part (split sep s) -> ~ In sep part.
Proof.
  revert part. induction s as [|c s IH]; intros part; simpl.
  - intros [<-|[]]. tauto.
  - destruct (N.eqb_spec c sep) as [->|Hne].
    + intros [<-|H]; [tauto|now apply IH].
    + destruct (split sep s) as [|h t]; simpl.
      * intros [<-|[]]. simpl. tauto.
      * intros [<-|H].
        -- simpl. intros [E|Hin]; [congruence|].
           revert Hin. apply IH. now left.
        -- apply IH. now right.
Qed.

Lemma nth_split_no_sep sep s i : ~ In sep (nth i (split sep s) []).
Proof.
  destruct (nth_in_or_default i (split sep s) []) as [H| ->].
  - now apply split_parts_no_sep in H.
  - tauto.
Qed.

Lemma extract_trimmed_hash_free line :
  isTrimmed (name (extractNameAndComment line))
  /\ isTrimmed (comment (extractNameAndComment line))
  /\ ~ In HASH (name (extractNameAndComment line))
  /\ ~ In HASH (comment (extractNameAndComment line)).
Proof.
  unfold isTrimmed, extractNameAndComment. cbn [name comment].
  repeat split.
  - apply trim_idempotent.
  - destruct (1 <? length (split HASH line))%nat;
      [apply trim_idempotent|reflexivity].
  - intros H%trim_In%stripTreePrefix_In%trim_In.
    now apply nth_split_no_sep in H.
  - destruct (1 <? length (split HASH line))%nat; [|tauto].
    intros H%trim_In. now apply nth_split_no_sep in H.
Qed.

(** X1.  The name and the comment of a line have no white space at either
    end and hold no [#], whatever the line is. *)
Theorem extracted_fields_are_trimmed_and_hash_free :
  forall line : JsString.t,
    isTrimmed (name (extractNameAndComment line))
    /\ isTrimmed (comment (extractNameAndComment line))
    /\ ~ In HASH (name (extractNameAndComment line))
    /\ ~ In HASH (comment (extractNameAndComment line)).
Proof. exact extract_trimmed_hash_free. Qed.

Lemma trim_head_not_space s c s' :
  trim s = c :: s' -> isWhiteSpace c = false.
Proof.
  unfold trim, trimStart.
  destruct (dropWhile isWhiteSpace s) as [|c0 t] eqn:E; [discriminate|].
  apply dropWhile_head in E.
  destruct (trimEnd_head (c0 :: t) c0 t eq_refl E) as [s'' ->].
  now intros [= <- _].
Qed.

Lemma last_rev_head {A} (l : list A) : last (rev l) = head l.
Proof.
  destruct l as [|x l]; [reflexivity|]. simpl. apply last_snoc.
Qed.

Lemma trim_last_not_space s d :
  last (trim s) = Some d -> isWhiteSpace d = false.
Proof.
  unfold trim, trimEnd. rewrite last_rev_head.
  destruct (dropWhile isWhiteSpace (rev (trimStart s))) as [|c t] eqn:E;
    [discriminate|].
  apply dropWhile_head in E. now intros [= <-].
Qed.

Lemma trim_fixed s c d :
  head s = Some c -> isWhiteSpace c = false ->
  last s = Some d -> isWhiteSpace d = false ->
  trim s = s.
Proof.
  intros Hhead Hc Hlast Hd. unfold trim, trimStart, trimEnd.
  destruct s as [|c0 s]; [discriminate|]. injection Hhead as ->.
  rewrite dropWhile_stop by exact Hc.
  apply last_Some in Hlast as [l' ->].
  rewrite rev_app_distr. simpl. rewrite Hd.
  change (d :: rev l') with (rev [d] ++ rev l').
  now rewrite <- rev_app_distr, rev_involutive.
Qed.

Lemma trim_cons_space w s :
  isWhiteSpace w = true -> trim (w :: s) = trim s.
Proof. intros Hw. unfold trim, trimStart. simpl. now rewrite Hw. Qed.

Lemma trimEnd_snoc_space w s :
  isWhiteSpace w = true -> trimEnd (s ++ [w]) = trimEnd s.
Proof.
  intros Hw. unfold trimEnd. rewrite rev_app_distr. simpl. now rewrite Hw.
Qed.

Lemma trim_snoc_space w s :
  isWhiteSpace w = true -> trim (s ++ [w]) = trim s.
Proof.
  intros Hw. unfold trim, trimStart.
  destruct (dropWhile isWhiteSpace s) as [|c t] eqn:E.
  - apply dropWhile_nil_iff in E. rewrite dropWhile_app_all by exact E.
    simpl. now rewrite Hw.
  - rewrite (dropWhile_app_stop _ _ _ _ _ E).
    change (c :: t ++ [w]) with ((c :: t) ++ [w]).
    now apply trimEnd_snoc_space.
Qed.

Lemma trim_app_space s w :
  forallb isWhiteSpace w = true -> trim (s ++ w) = trim s.
Proof.
  revert s. induction w as [|c w IH]; intros s; simpl.
  - now rewrite app_nil_r.
  - intros [Hc Hw]%andb_true_iff.
    change (s ++ c :: w) with (s ++ [c] ++ w).
    rewrite app_assoc, IH by exact Hw. now apply trim_snoc_space.
Qed.

(** ** Writing a line and reading it back *)

Lemma indentation_bars level :
  forallb isSpaceOrBar (indentation level) = true
  /\ count_occ N.eq_dec (indentation level) VBAR = level
  /\ ~ In HASH (indentation level).
Proof.
  induction level as [|level (IH1 & IH2 & IH3)]; simpl.
  - repeat split. tauto.
  - repeat split.
    + exact IH1.
    + now rewrite IH2.
    + intros [H|[H|[H|[H|H]]]]; try discriminate. contradiction.
Qed.

Lemma trimmed_head s :
  s <> [] -> trim s = s ->
  exists c s', s = c :: s' /\ isWhiteSpace c = false.
Proof.
  intros Hne Ht. destruct s as [|c s']; [contradiction|].
  exists c, s'. split; [reflexivity|].
  now apply (trim_head_not_space (c :: s') c s').
Qed.

Section FormattedLine.

Variables (level : nat) (isLast : bool) (entryName : JsString.t).
Hypothesis entryName_not_empty : entryName <> [].
Hypothesis entryName_trimmed : isTrimmed entryName.
Hypothesis entryName_no_hash : ~ In HASH entryName.

Let glyph : N := if isLast then ELL else TEE.
Let body : JsString.t :=
  indentation level ++ glyph :: DASH :: DASH :: 0x20 :: entryName.

Lemma glyph_isBranch : isBranch glyph = true.
Proof. unfold glyph. now destruct isLast. Qed.

Lemma entryName_head :
  exists c s', entryName = c :: s' /\ isWhiteSpace c = false.
Proof. exact (trimmed_head _ entryName_not_empty entryName_trimmed). Qed.

Lemma body_no_hash : ~ In HASH body.
Proof.
  unfold body. intros [H|[H|[H|[H|[H|H]]]]]%in_app_iff.
  - now apply indentation_bars in H.
  - unfold glyph in H. destruct isLast; discriminate.
  - discriminate.
  - discriminate.
  - discriminate.
  - contradiction.
Qed.

Lemma body_trimmed : trim body = body.
Proof.
  destruct entryName_head as (c & s' & E & Hc).
  assert (Hlast : exists d, last body = Some d /\ isWhiteSpace d = false).
  { assert (Hl : is_Some (last entryName))
      by (rewrite E; apply last_is_Some; discriminate).
    destruct Hl as [d Hd]. exists d. split.
    - unfold body.
      change (glyph :: DASH :: DASH :: 0x20 :: entryName)
        with ([glyph; DASH; DASH; 0x20] ++ entryName).
      rewrite !last_app, Hd. reflexivity.
    - apply (trim_last_not_space entryName). now rewrite entryName_trimmed. }
  destruct Hlast as (d & Hlast & Hd).
  assert (Hhead : exists h, head body = Some h /\ isWhiteSpace h = false).
  { unfold body. destruct level; simpl.
    - exists glyph. split; [reflexivity|].
      now destruct (isBranch_cases _ glyph_isBranch) as (_ & ? & _).
    - exists VBAR. split; reflexivity. }
  destruct Hhead as (h & Hhead & Hh).
  exact (trim_fixed body h d Hhead Hh Hlast Hd).
Qed.

Lemma body_stripped : stripTreePrefix body = entryName.
Proof.
  destruct entryName_head as (c & s' & E & Hc).
  unfold stripTreePrefix, body.
  rewrite dropWhile_app_all by apply indentation_bars.
  destruct (isBranch_cases _ glyph_isBranch) as (Hg & _ & _).
  rewrite dropWhile_stop by exact Hg.
  rewrite glyph_isBranch, !N.eqb_refl. simpl.
  rewrite E. now apply dropWhile_stop.
Qed.

Lemma formatLine_extract entryComment :
  isTrimmed entryComment -> ~ In HASH entryComment ->
  extractNameAndComment (formatLine level isLast entryName entryComment)
  = {| name := entryName; comment := entryComment |}.
Proof.
  intros Hct Hch. unfold formatLine. fold glyph.
  destruct entryComment as [|c cmt]; cbn [truthy].
  - rewrite app_nil_r. fold body.
    rewrite (extract_without_hash _ body_no_hash).
    now rewrite body_trimmed, body_stripped, entryName_trimmed.
  - replace (indentation level
             ++ glyph :: DASH :: DASH :: 0x20 :: entryName
             ++ 0x20 :: HASH :: 0x20 :: c :: cmt)
      with ((body ++ [0x20]) ++ HASH :: 0x20 :: c :: cmt)
      by (unfold body; rewrite <- !app_assoc; reflexivity).
    unfold extractNameAndComment.
    rewrite split_at_first_sep.
    + rewrite split_no_sep.
      * cbn [nth length Nat.ltb Nat.leb].
        rewrite trim_snoc_space by reflexivity.
        rewrite body_trimmed, body_stripped, entryName_trimmed.
        rewrite trim_cons_space by reflexivity. now rewrite Hct.
      * intros [H|H]; [discriminate|contradiction].
    + intros [H|[H|[]]]%in_app_iff; [now apply body_no_hash|discriminate].
Qed.

Lemma formatLine_level entryComment :
  ~ In VBAR entryName -> ~ In VBAR entryComment ->
  calculateIndentationLevel (formatLine level isLast entryName entryComment)
  = level.
Proof.
  intros Hn Hc. rewrite calculateIndentationLevel_count. unfold formatLine.
  rewrite count_occ_app.
  destruct (indentation_bars level) as (_ & -> & _).
  assert (Hrest :
    count_occ N.eq_dec
      ((if isLast then ELL else TEE) :: DASH :: DASH :: 0x20 :: entryName
       ++ (if truthy entryComment
           then 0x20 :: HASH :: 0x20 :: entryComment else [])) VBAR = O).
  { apply count_occ_not_In.
    intros [H|[H|[H|[H|H]]]]; try discriminate.
    - destruct isLast; discriminate.
    - apply in_app_iff in H as [H|H]; [contradiction|].
      destruct (truthy entryComment); [|contradiction].
      destruct H as [H|[H|[H|H]]]; try discriminate. contradiction. }
  rewrite Hrest. lia.
Qed.

End FormattedLine.

(** X2.  A line written in the format of the tool reads back as it was
    written: for a name that is not empty and a name and a comment that
    are trimmed and hold neither [#] nor [│], the line made of [level]
    bars, a branch glyph, the name and the comment decomposes into this
    name and this comment and has the level [level]. *)
Theorem formatted_line_reads_back :
  forall (level : nat) (isLast : bool) (entryName entryComment : JsString.t),
    entryName <> [] ->
    isTrimmed entryName -> isTrimmed entryComment ->
    ~ In HASH entryName -> ~ In HASH entryComment ->
    ~ In VBAR entryName -> ~ In VBAR entryComment ->
    extractNameAndComment (formatLine level isLast entryName entryComment)
    = {| name := entryName; comment := entryComment |}
    /\ calculateIndentationLevel
         (formatLine level isLast entryName entryComment)
       = level.
Proof.
  intros level isLast nm cmt Hne Hnt Hct Hnh Hch Hnb Hcb. split.
  - now apply formatLine_extract.
  - now apply formatLine_level.
Qed.

Lemma formatted_line_reads_back_witness :
  formatLine 2 false (lit "Button.js") (lit "Button component")
  = lit "│   │   ├── Button.js # Button component"
  /\ extractNameAndComment (lit "│   │   ├── Button.js # Button component")
     = {| name := lit "Button.js"; comment := lit "Button component" |}
  /\ calculateIndentationLevel
       (lit "│   │   ├── Button.js # Button component") = 2%nat.
Proof.
  assert (Hfmt : formatLine 2 false (lit "Button.js") (lit "Button component")
                 = lit "│   │   ├── Button.js # Button component")
    by (vm_compute; reflexivity).
  split; [exact Hfmt|]. rewrite <- Hfmt.
  apply (formatted_line_reads_back 2 false
           (lit "Button.js") (lit "Button component")).
  - vm_compute. discriminate.
  - vm_compute. reflexivity.
  - vm_compute. reflexivity.
  - vm_compute. intuition discriminate.
  - vm_compute. intuition discriminate.
  - vm_compute. intuition discriminate.
  - vm_compute. intuition discriminate.
Defined.

(** ** White space at the end of a line *)

Lemma split_snoc_parts sep s w :
  ~ In sep w ->
  exists parts lastPart,
    split sep s = parts ++ [lastPart]
    /\ split sep (s ++ w) = parts ++ [lastPart ++ w].
Proof.
  intros Hw. induction s as [|c s (parts & lastPart & E & E')]; simpl.
  - exists [], []. now rewrite (split_no_sep _ _ Hw).
  - destruct (c =? sep).
    + exists ([] :: parts), lastPart. now rewrite E, E'.
    + rewrite E, E'. destruct parts as [|h parts]; simpl.
      * now exists [], (c :: lastPart).
      * now exists ((c :: h) :: parts), lastPart.
Qed.

Lemma space_not_hash_bar w :
  forallb isWhiteSpace w = true -> ~ In HASH w /\ ~ In VBAR w.
Proof.
  intros Hall. rewrite forallb_forall in Hall.
  split; intros Hin; apply Hall in Hin; vm_compute in Hin; discriminate.
Qed.

Lemma nth_trim_padded parts lastPart w i :
  forallb isWhiteSpace w = true ->
  trim (nth i (parts ++ [lastPart ++ w]) [])
  = trim (nth i (parts ++ [lastPart]) []).
Proof.
  intros Hw. revert i. induction parts as [|p parts IH]; intros i; simpl.
  - destruct i as [|i]; [now apply trim_app_space|now destruct i].
  - destruct i as [|i]; [reflexivity|apply IH].
Qed.

Lemma extract_app_space line w :
  forallb isWhiteSpace w = true ->
  extractNameAndComment (line ++ w) = extractNameAndComment line.
Proof.
  intros Hw. destruct (space_not_hash_bar w Hw) as [Hh _].
  destruct (split_snoc_parts HASH line w Hh) as (parts & lastPart & E & E').
  unfold extractNameAndComment. rewrite E, E'.
  rewrite !(nth_trim_padded _ _ _ _ Hw), !length_app. reflexivity.
Qed.

Lemma level_app_space line w :
  forallb isWhiteSpace w = true ->
  calculateIndentationLevel (line ++ w) = calculateIndentationLevel line.
Proof.
  intros Hw. destruct (space_not_hash_bar w Hw) as [_ Hb].
  rewrite !calculateIndentationLevel_count, count_occ_app.
  rewrite (proj1 (count_occ_not_In N.eq_dec w VBAR) Hb). lia.
Qed.

Lemma processLine_app_space st line w :
  forallb isWhiteSpace w = true ->
  processLine st (line ++ w) = processLine st line.
Proof.
  intros Hw. unfold processLine.
  now rewrite (trim_app_space _ _ Hw), (extract_app_space _ _ Hw),
    (level_app_space _ _ Hw).
Qed.

Lemma parseLines_padded lines pads :
  Forall (fun pad => forallb isWhiteSpace pad = true) pads ->
  length pads = length lines ->
  parseLines (List.filter (fun line => truthy (trim line))
                (zip_with app lines pads))
  = parseLines (List.filter (fun line => truthy (trim line)) lines).
Proof.
  intros Hpads Hlen.
  assert (Hloop : forall ls ps st,
    Forall (fun pad => forallb isWhiteSpace pad = true) ps ->
    length ps = length ls ->
    fold_left processLine
      (List.filter (fun line => truthy (trim line)) (zip_with app ls ps)) st
    = fold_left processLine
        (List.filter (fun line => truthy (trim line)) ls) st).
  { induction ls as [|l ls IH]; intros [|p ps] st Hps Hl;
      try discriminate; [reflexivity|].
    apply Forall_cons in Hps as [Hp Hps]. simpl.
    rewrite (trim_app_space _ _ Hp).
    destruct (truthy (trim l)); simpl.
    - rewrite (processLine_app_space _ _ _ Hp). apply IH; [exact Hps|].
      simpl in Hl. lia.
    - apply IH; [exact Hps|]. simpl in Hl. lia. }
  destruct lines as [|l ls]; destruct pads as [|p ps]; try discriminate;
    [reflexivity|].
  apply Forall_cons in Hpads as [Hp Hps]. simpl.
  rewrite (trim_app_space _ _ Hp).
  assert (Hps' : length ps = length ls) by (simpl in Hlen; lia).
  destruct (truthy (trim l)).
  - cbn [parseLines]. unfold initState, rootName.
    rewrite (extract_app_space _ _ Hp). now rewrite (Hloop ls ps _ Hps Hps').
  - clear Hlen. revert ps Hps Hps'.
    induction ls as [|l2 ls IH]; intros [|p2 ps] Hps Hl;
      try discriminate; [reflexivity|].
    apply Forall_cons in Hps as [Hp2 Hps]. simpl.
    rewrite (trim_app_space _ _ Hp2).
    assert (Hl' : length ps = length ls) by (simpl in Hl; lia).
    destruct (truthy (trim l2)).
    + cbn [parseLines]. unfold initState, rootName.
      rewrite (extract_app_space _ _ Hp2).
      now rewrite (Hloop ls ps _ Hps Hl').
    + now apply IH.
Qed.

Lemma split_unlines lines :
  lines <> [] ->
  Forall (fun line => ~ In LF line) lines ->
  split LF (unlines lines) = lines.
Proof.
  induction lines as [|l lines IH]; [congruence|]. intros _ Hall.
  apply Forall_cons in Hall as [Hl Hall].
  destruct lines as [|l2 lines]; simpl.
  - now apply split_no_sep.
  - rewrite (split_at_first_sep _ _ _ Hl). f_equal.
    now apply IH.
Qed.

Lemma zip_app_no_LF lines :
  forall pads,
    Forall (fun line => ~ In LF line) lines ->
    Forall (fun pad => forallb isWhiteSpace pad = true /\ ~ In LF pad) pads ->
    Forall (fun line => ~ In LF line) (zip_with app lines pads).
Proof.
  induction lines as [|x ls IH]; intros [|p ps] Hls Hps;
    try constructor.
  - apply Forall_cons in Hls as [Hx _].
    apply Forall_cons in Hps as [[_ Hp] _].
    intros [H|H]%in_app_iff; contradiction.
  - apply Forall_cons in Hls as [_ Hls].
    apply Forall_cons in Hps as [_ Hps]. now apply IH.
Qed.

(** X3.  White space at the end of a line is ignored: putting white space
    (such as the carriage return of a CRLF line ending) behind any of the
    lines of a text does not change the result. *)
Theorem trailing_white_space_is_ignored :
  forall lines pads : list JsString.t,
    length pads = length lines ->
    Forall (fun line => ~ In LF line) lines ->
    Forall (fun pad => forallb isWhiteSpace pad = true /\ ~ In LF pad) pads ->
    parseTreeStructure (unlines (zip_with app lines pads))
    = parseTreeStructure (unlines lines).
Proof.
  intros lines pads Hlen Hlines Hpads.
  destruct lines as [|l lines].
  { destruct pads; [reflexivity|discriminate]. }
  unfold parseTreeStructure, nonBlankLines.
  rewrite (split_unlines (l :: lines)) by (congruence || assumption).
  rewrite split_unlines.
  - apply parseLines_padded; [|exact Hlen].
    eapply Forall_impl; [exact Hpads|]. now intros pad [H _].
  - destruct pads; discriminate.
  - now apply zip_app_no_LF.
Qed.

Lemma trailing_white_space_is_ignored_witness :
  parseTreeStructure
    (unlines [lit "project/" ++ [0x0D]; lit "├── a.js # first" ++ [0x0D];
              lit "└── b.js   "])
  = parseTreeStructure
      (unlines [lit "project/"; lit "├── a.js # first"; lit "└── b.js"]).
Proof.
  apply (trailing_white_space_is_ignored
           [lit "project/"; lit "├── a.js # first"; lit "└── b.js"]
           [[0x0D]; [0x0D]; lit "   "]).
  - reflexivity.
  - repeat constructor; vm_compute; intuition discriminate.
  - repeat constructor; vm_compute; intuition discriminate.
Defined.

(** ** Blank lines *)

Lemma filter_nonblank_insert before blank after :
  forallb isWhiteSpace blank = true ->
  List.filter (fun line => truthy (trim line)) (before ++ blank :: after)
  = List.filter (fun line => truthy (trim line)) (before ++ after).
Proof.
  intros Hblank. rewrite !List.filter_app. simpl.
  apply trim_nil_iff in Hblank. now rewrite Hblank.
Qed.

(** X4.  Blank lines are ignored wherever they stand: a line of white
    space put between the lines of a text, before them or after them (a
    final line break gives such a line) does not change the result. *)
Theorem blank_lines_are_ignored :
  forall (before after : list JsString.t) (blank : JsString.t),
    Forall (fun line => ~ In LF line) (before ++ after) ->
    forallb isWhiteSpace blank = true ->
    ~ In LF blank ->
    parseTreeStructure (unlines (before ++ blank :: after))
    = parseTreeStructure (unlines (before ++ after)).
Proof.
  intros before after blank Hlines Hblank Hlf.
  unfold parseTreeStructure, nonBlankLines.
  rewrite (split_unlines (before ++ blank :: after)).
  - rewrite (filter_nonblank_insert _ _ _ Hblank).
    destruct (before ++ after) as [|l ls] eqn:E; [reflexivity|].
    rewrite split_unlines; [reflexivity|congruence|exact Hlines].
  - now destruct before.
  - apply Forall_app in Hlines as [Hb Ha].
    apply Forall_app. split; [exact Hb|]. now constructor.
Qed.

Lemma blank_lines_are_ignored_witness :
  parseTreeStructure
    (unlines [lit "project/"; lit "   "; lit "└── a.js"; []])
  = parseTreeStructure (unlines [lit "project/"; lit "└── a.js"; []]).
Proof.
  apply (blank_lines_are_ignored [lit "project/"]
           [lit "└── a.js"; []] (lit "   ")).
  - repeat constructor; vm_compute; intuition discriminate.
  - reflexivity.
  - vm_compute. intuition discriminate.
Defined.

(** ** One path for every line that has a name *)

Lemma hasName_true line :
  hasName line = true -> name (extractNameAndComment line) <> [].
Proof. apply truthy_true_iff. Qed.

Lemma hasName_false line :
  hasName line = false -> name (extractNameAndComment line) = [].
Proof. apply truthy_false_iff. Qed.

Lemma loop_paths_named lines :
  forall st,
    exists emitted,
      st_paths (fold_left processLine lines st) = st_paths st ++ emitted
      /\ Forall2 endsWithNameOf emitted (List.filter hasName lines).
Proof.
  induction lines as [|line lines IH]; intros st; simpl.
  - exists []. rewrite app_nil_r. split; [reflexivity|constructor].
  - destruct (IH (processLine st line)) as (emitted & -> & Hall).
    destruct (hasName line) eqn:Hn.
    + rewrite (processLine_named _ _ (hasName_true _ Hn)).
      cbv zeta. cbn [st_paths]. eexists (_ :: emitted).
      rewrite <- app_assoc. split; [reflexivity|].
      constructor; [eexists; reflexivity|exact Hall].
    + rewrite (processLine_unnamed _ _ (hasName_false _ Hn)).
      now exists emitted.
Qed.

(** X5.  The paths are the lines that have a name, one path for each and
    in the order of the lines: there are as many paths as non-blank lines
    with a name, and every path ends with the name of its line. *)
Theorem one_path_per_named_line :
  forall content : JsString.t,
    length (paths (parseTreeStructure content))
    = length (namedLines content)
    /\ Forall2 endsWithNameOf
         (paths (parseTreeStructure content)) (namedLines content).
Proof.
  intros content.
  assert (H : Forall2 endsWithNameOf
                (paths (parseTreeStructure content)) (namedLines content)).
  { unfold parseTreeStructure, namedLines.
    destruct (nonBlankLines content) as [|line0 rest]; [constructor|].
    cbn [parseLines paths].
    destruct (loop_paths_named rest (initState line0))
      as (emitted & -> & Hall).
    unfold initState. cbn [st_paths List.filter]. unfold hasName at 1.
    fold (rootName line0). destruct (truthy (rootName line0)).
    - constructor; [now exists []|exact Hall].
    - exact Hall. }
  split; [now apply Forall2_length in H|exact H].
Qed.

(** ** Where a path hangs *)

Lemma topOrEmpty_last (stack : list JsString.t) top :
  last stack = Some top -> topOrEmpty stack = top.
Proof.
  intros H. unfold topOrEmpty. rewrite H. now destruct top.
Qed.


Lemma endsWith_not_empty c (s : JsString.t) : endsWith c s = true -> s <> [].
Proof. now destruct s. Qed.







(** ** The root name starts every path *)

Lemma topOrEmpty_elem (stack : list JsString.t) :
  stack <> [] -> topOrEmpty stack ∈ stack.
Proof.
  intros Hne. destruct (last stack) as [top|] eqn:E.
  - rewrite (topOrEmpty_last _ _ E).
    apply last_Some in E as [l' ->]. apply elem_of_app. right.
    apply list_elem_of_here.
  - apply last_None in E. contradiction.
Qed.

Lemma initState_rootStartsAll line0 :
  rootStartsAll (rootName line0) (initState line0).
Proof.
  unfold rootStartsAll, initState. cbn [st_parentStack st_paths].
  split; [discriminate|]. split; [now repeat constructor|].
  destruct (truthy (rootName line0)); now repeat constructor.
Qed.

Lemma processLine_rootStartsAll root st line :
  rootStartsAll root st -> rootStartsAll root (processLine st line).
Proof.
  intros Hinv.
  destruct (decide (name (extractNameAndComment line) = [])) as [E|E].
  { now rewrite processLine_unnamed. }
  rewrite (processLine_named _ _ E). cbv zeta.
  destruct Hinv as (Hne & Hstack & Hpaths).
  set (level := calculateIndentationLevel line).
  assert (Hne' : adjustStack (st_parentStack st) level <> []).
  { rewrite adjustStack_take, Nat.add_1_r.
    destruct (st_parentStack st); [contradiction|discriminate]. }
  assert (Hstack' : Forall (fun e => root `prefix_of` e)
                      (adjustStack (st_parentStack st) level)).
  { rewrite adjustStack_take. now apply Forall_take. }
  assert (Hfull : root `prefix_of`
                    topOrEmpty (adjustStack (st_parentStack st) level)
                    ++ name (extractNameAndComment line)).
  { apply prefix_app_r. rewrite Forall_forall in Hstack'.
    apply Hstack'. now apply topOrEmpty_elem. }
  unfold rootStartsAll. cbn [st_parentStack st_paths]. split; [|split].
  - destruct (endsWith SLASH _); [|exact Hne'].
    intros H. now apply app_eq_nil in H as [_ H].
  - destruct (endsWith SLASH _); [|exact Hstack'].
    apply Forall_app. split; [exact Hstack'|now repeat constructor].
  - apply Forall_app. split; [exact Hpaths|now repeat constructor].
Qed.

Lemma loop_rootStartsAll root lines :
  forall st,
    rootStartsAll root st ->
    rootStartsAll root (fold_left processLine lines st).
Proof.
  induction lines as [|line lines IH]; intros st Hinv; simpl.
  - exact Hinv.
  - apply IH. now apply processLine_rootStartsAll.
Qed.

Lemma parseLines_root_prefix line0 rest :
  Forall (fun p => rootName line0 `prefix_of` p)
    (paths (parseLines (line0 :: rest))).
Proof.
  cbn [parseLines paths].
  apply (loop_rootStartsAll (rootName line0) rest (initState line0)).
  apply initState_rootStartsAll.
Qed.

(** X7.  Every path starts with the root name, the name of the first
    non-blank line: the whole tree stays below its root. *)
Theorem every_path_starts_with_root_name :
  forall (content line0 : JsString.t) (rest : list JsString.t)
         (path : JsString.t),
    nonBlankLines content = line0 :: rest ->
    path ∈ paths (parseTreeStructure content) ->
    rootName line0 `prefix_of` path.
Proof.
  intros content line0 rest path Hlines Hin.
  unfold parseTreeStructure in Hin. rewrite Hlines in Hin.
  pose proof (parseLines_root_prefix line0 rest) as Hall.
  rewrite Forall_forall in Hall. now apply Hall.
Qed.

Lemma every_path_starts_with_root_name_witness :
  lit "project/" `prefix_of` lit "project/src/index.js".
Proof.
  apply (every_path_starts_with_root_name exampleTree (lit "project/")
           [lit "├── src/"; lit "│   ├── components/";
            lit "│   │   ├── Button.js # Button component";
            lit "│   │   └── Input.js"; lit "│   └── index.js";
            lit "└── package.json # Project dependencies"]
           (lit "project/src/index.js")).
  - vm_compute. reflexivity.
  - vm_compute. do 5 apply list_elem_of_further. apply list_elem_of_here.
Defined.

(** ** What the comment map holds *)

Lemma setProperty_lookup (key val : JsString.t)
    (obj : gmap JsString.t JsString.t) (k v : JsString.t) :
  setProperty key val obj !! k = Some v ->
  (k = key /\ v = val /\ key <> protoKey) \/ obj !! k = Some v.
Proof.
  unfold setProperty. destruct (decide (key = protoKey)) as [E|E]; [tauto|].
  destruct (decide (key = k)) as [->|Hne].
  - rewrite lookup_insert_eq. intros [= <-]. now left.
  - rewrite lookup_insert_ne by assumption. tauto.
Qed.

Lemma extract_comment_proper line :
  truthy (comment (extractNameAndComment line)) = true ->
  comment (extractNameAndComment line) <> []
  /\ isTrimmed (comment (extractNameAndComment line))
  /\ ~ In HASH (comment (extractNameAndComment line)).
Proof.
  intros H%truthy_true_iff.
  destruct (extract_trimmed_hash_free line) as (_ & Ht & _ & Hh).
  now repeat split.
Qed.

Lemma initState_commentsAreProper line0 :
  commentsAreProper (initState line0).
Proof.
  intros key val. unfold initState. cbn [st_comments].
  destruct (truthy (rootName line0)); cbn [andb];
    [|now rewrite lookup_empty].
  destruct (truthy (comment (extractNameAndComment line0))) eqn:Hc;
    [|now rewrite lookup_empty].
  intros [(-> & -> & Hp)|H]%setProperty_lookup.
  - destruct (extract_comment_proper line0 Hc) as (? & ? & ?).
    now repeat split.
  - now rewrite lookup_empty in H.
Qed.

Lemma processLine_commentsAreProper st line :
  commentsAreProper st -> commentsAreProper (processLine st line).
Proof.
  intros Hinv.
  destruct (decide (name (extractNameAndComment line) = [])) as [E|E].
  { now rewrite processLine_unnamed. }
  rewrite (processLine_named _ _ E). cbv zeta. intros key val.
  cbn [st_comments].
  destruct (truthy (comment (extractNameAndComment line))) eqn:Hc;
    [|apply Hinv].
  intros [(-> & -> & Hp)|H]%setProperty_lookup; [|now apply Hinv].
  destruct (extract_comment_proper line Hc) as (? & ? & ?).
  now repeat split.
Qed.

Lemma loop_commentsAreProper lines :
  forall st,
    commentsAreProper st ->
    commentsAreProper (fold_left processLine lines st).
Proof.
  induction lines as [|line lines IH]; intros st Hinv; simpl.
  - exact Hinv.
  - apply IH. now apply processLine_commentsAreProper.
Qed.

(** X8.  A comment kept in the comment map is never empty, has no white
    space at either end and holds no [#]; and no comment is ever kept
    under the key [__proto__].  So a caller that tests [comments[path]]
    for truth tests that the path has a comment. *)
Theorem kept_comments_are_proper :
  forall (content key val : JsString.t),
    comments (parseTreeStructure content) !! key = Some val ->
    val <> [] /\ isTrimmed val /\ ~ In HASH val /\ key <> protoKey.
Proof.
  intros content key val. unfold parseTreeStructure.
  destruct (nonBlankLines content) as [|line0 rest]; cbn [parseLines comments].
  - now rewrite lookup_empty.
  - apply (loop_commentsAreProper rest (initState line0)).
    apply initState_commentsAreProper.
Qed.

Lemma kept_comments_are_proper_witness :
  lit "Button component" <> [] /\ isTrimmed (lit "Button component")
  /\ ~ In HASH (lit "Button component")
  /\ lit "project/src/components/Button.js" <> protoKey.
Proof.
  apply (kept_comments_are_proper exampleTree
           (lit "project/src/components/Button.js")
           (lit "Button component")).
  vm_compute. reflexivity.
Defined.

(** ** From the text to the classification *)

Lemma prefix_startsWith (root path : JsString.t) :
  root <> [] -> root `prefix_of` path ->
  startsWith SLASH path = startsWith SLASH root.
Proof.
  intros Hne [k ->]. destruct root; [contradiction|reflexivity].
Qed.

(** X9.  For a text whose first non-blank line has a name, the paths of
    [parseTreeStructure] can be classified exactly when the root name
    does not start with [/] or no path is a file: under a relative root
    [separateDirectoriesAndFiles] always returns, and under an absolute
    root it returns only if every path ends in [/]. *)
Theorem tree_is_classified_iff_root_relative_or_no_file :
  forall (content line0 : JsString.t) (rest : list JsString.t),
    nonBlankLines content = line0 :: rest ->
    rootName line0 <> [] ->
    ((exists fuel r,
         separateDirectoriesAndFiles fuel (paths (parseTreeStructure content))
         = Some r)
     <-> (startsWith SLASH (rootName line0) = false
          \/ forall path, path ∈ paths (parseTreeStructure content) ->
                          endsWith SLASH path = true)).
Proof.
  intros content line0 rest Hlines Hroot.
  rewrite separate_returns_iff.
  assert (Hstart : forall path,
    path ∈ paths (parseTreeStructure content) ->
    startsWith SLASH path = startsWith SLASH (rootName line0)).
  { intros path Hin. apply prefix_startsWith; [exact Hroot|].
    unfold parseTreeStructure in Hin. rewrite Hlines in Hin.
    pose proof (parseLines_root_prefix line0 rest) as Hall.
    rewrite Forall_forall in Hall. now apply Hall. }
  split.
  - intros Hrel.
    destruct (startsWith SLASH (rootName line0)) eqn:Hr; [|now left].
    right. intros path Hin.
    destruct (endsWith SLASH path) eqn:He; [reflexivity|].
    specialize (Hrel path Hin He). rewrite (Hstart path Hin) in Hrel.
    discriminate.
  - intros [Hr|Hdirs] path Hin He.
    + now rewrite (Hstart path Hin).
    + rewrite (Hdirs path Hin) in He. discriminate.
Qed.

Lemma tree_is_classified_iff_root_relative_or_no_file_witness :
  exists fuel r,
    separateDirectoriesAndFiles fuel (paths (parseTreeStructure exampleTree))
    = Some r.
Proof.
  apply (tree_is_classified_iff_root_relative_or_no_file exampleTree
           (lit "project/")
           [lit "├── src/"; lit "│   ├── components/";
            lit "│   │   ├── Button.js # Button component";
            lit "│   │   └── Input.js"; lit "│   └── index.js";
            lit "└── package.json # Project dependencies"]).
  - vm_compute. reflexivity.
  - vm_compute. discriminate.
  - left. vm_compute. reflexivity.
Defined.

(** * Further properties of the classifier *)

Lemma dirname_not_empty path : NodePath.dirname path <> [].
Proof.
  unfold NodePath.dirname.
  destruct (length path =? 0)%nat eqn:Hlen; [discriminate|].
  destruct (NodePath.scan path (length path - 1) true) as [e|] eqn:Hscan.
  - apply scan_bounds in Hscan.
    destruct (startsWith SLASH path && (e =? 1)%nat); [discriminate|].
    destruct path; [discriminate|]. destruct e; [lia|discriminate].
  - destruct (startsWith SLASH path); discriminate.
Qed.

Lemma separate_spec fuel paths r :
  separateDirectoriesAndFiles fuel paths = Some r ->
  files r = List.filter isFile paths
  /\ forall d,
       d ∈ directories r <->
       (d ∈ paths /\ endsWith SLASH d = true)
       \/ (exists filePath,
              filePath ∈ paths /\ endsWith SLASH filePath = false
              /\ impliedAncestor filePath d).
Proof.
  unfold separateDirectoriesAndFiles.
  destruct (classifyLoop fuel paths ([], [])) as [[dirs fs]|] eqn:Hloop;
    [|discriminate].
  intros [= <-]. cbn [directories files].
  apply classifyLoop_spec in Hloop as (-> & Hdirs & _).
  split; [reflexivity|]. intros d.
  destruct (sortByDepth_spec dirs) as (_ & Hperm & _).
  rewrite Hperm, Hdirs. split; [|tauto].
  intros [H|H]; [now apply elem_of_nil in H|exact H].
Qed.

(** X10.  The directory of every file is among the directories: for a
    file of the result whose [dirname] is not [.], that directory, with
    [/] behind it, is one of the directories of the result, whether the
    input listed it or not. *)
Theorem parent_directory_of_a_file_is_listed :
  forall (paths : list JsString.t) (fuel : nat) (r : Classification)
         (file : JsString.t),
    separateDirectoriesAndFiles fuel paths = Some r ->
    file ∈ files r ->
    NodePath.dirname file <> [DOT] ->
    NodePath.dirname file ++ [SLASH] ∈ directories r.
Proof.
  intros paths fuel r file Hr Hfile Hdot.
  apply separate_spec in Hr as (Hfiles & Hdirs).
  rewrite Hfiles, list_elem_of_In in Hfile.
  apply filter_In in Hfile as [Hin Hf]. apply list_elem_of_In in Hin.
  apply Hdirs. right. exists file. split; [exact Hin|]. split.
  - unfold isFile in Hf. now apply negb_true_iff in Hf.
  - exists O. split; [|reflexivity].
    intros j Hj. replace j with O by lia. simpl.
    split; [apply dirname_not_empty|exact Hdot].
Qed.

Lemma parent_directory_of_a_file_is_listed_witness :
  lit "lib/util/" ∈ [lit "lib/"; lit "lib/util/"].
Proof.
  apply (parent_directory_of_a_file_is_listed
           [lit "lib/util/strings.js"] 30
           {| directories := [lit "lib/"; lit "lib/util/"];
              files := [lit "lib/util/strings.js"] |}
           (lit "lib/util/strings.js")).
  - vm_compute. reflexivity.
  - apply list_elem_of_here.
  - vm_compute. discriminate.
Defined.

(** ** Lists of directories *)

Lemma setAdd_fresh (dir : JsString.t) directories :
  dir ∉ directories -> setAdd dir directories = directories ++ [dir].
Proof.
  intros H. unfold setAdd. now destruct (decide (dir ∈ directories)).
Qed.

Lemma classifyLoop_directories fuel paths :
  forall acc fs,
    NoDup (acc ++ paths) ->
    Forall (fun p => endsWith SLASH p = true) paths ->
    classifyLoop fuel paths (acc, fs) = Some (acc ++ paths, fs).
Proof.
  induction paths as [|p paths IH]; intros acc fs Hnd Hall; simpl.
  - now rewrite app_nil_r.
  - apply Forall_cons in Hall as [Hp Hall].
    unfold classifyPath. rewrite Hp. cbn [fst snd].
    rewrite setAdd_fresh.
    + rewrite IH; [now rewrite <- app_assoc| |exact Hall].
      now rewrite <- app_assoc.
    + apply NoDup_app in Hnd as (_ & Hdisj & _).
      intros Hin. apply (Hdisj p Hin). apply list_elem_of_here.
Qed.

Lemma insertByDepth_last a sorted :
  Forall (fun b => depthOrder b a) sorted ->
  insertByDepth a sorted = sorted ++ [a].
Proof.
  induction 1 as [|b sorted Hb _ IH]; simpl; [reflexivity|].
  unfold depthOrder in Hb.
  destruct (Nat.leb_spec (depth b) (depth a)); [|lia]. now rewrite IH.
Qed.

Lemma StronglySorted_snoc_bound {A} (R : A -> A -> Prop) l a :
  StronglySorted R (l ++ [a]) -> Forall (fun b => R b a) l.
Proof.
  induction l as [|x l IH]; simpl; intros H; [constructor|].
  apply StronglySorted_inv in H as [Hs Hx]. constructor.
  - rewrite Forall_forall in Hx. apply Hx, elem_of_app. right.
    apply list_elem_of_here.
  - now apply IH.
Qed.

Lemma StronglySorted_app_l {A} (R : A -> A -> Prop) l k :
  StronglySorted R (l ++ k) -> StronglySorted R l.
Proof.
  induction l as [|x l IH]; simpl; intros H; [constructor|].
  apply StronglySorted_inv in H as [Hs Hx]. constructor; [now apply IH|].
  rewrite Forall_forall in *. intros y Hy. apply Hx, elem_of_app. now left.
Qed.

Lemma sortLoop_sorted_id dirs :
  forall sorted,
    StronglySorted depthOrder (sorted ++ dirs) ->
    fold_left (fun sorted a => insertByDepth a sorted) dirs sorted
    = sorted ++ dirs.
Proof.
  induction dirs as [|a dirs IH]; intros sorted Hs; simpl.
  - now rewrite app_nil_r.
  - change (sorted ++ a :: dirs) with (sorted ++ [a] ++ dirs) in *.
    rewrite app_assoc in *.
    rewrite insertByDepth_last.
    + now apply IH.
    + apply StronglySorted_snoc_bound. now apply StronglySorted_app_l in Hs.
Qed.

Lemma sortByDepth_sorted_id dirs :
  StronglySorted depthOrder dirs -> sortByDepth dirs = dirs.
Proof. intros H. now apply (sortLoop_sorted_id dirs []). Qed.

(** X11.  A list of directory paths without repeats is classified with
    no turn of the parent loop at all, and the sort is stable: the result
    holds no file, its directories are the input ones, sorted by the
    number of [/] characters they hold, and those with the same number of
    [/] stand in the order of the input. *)
Theorem directory_list_is_sorted_stably :
  forall (paths : list JsString.t) (fuel : nat),
    NoDup paths ->
    Forall (fun p => endsWith SLASH p = true) paths ->
    exists r,
      separateDirectoriesAndFiles fuel paths = Some r
      /\ files r = []
      /\ Permutation (directories r) paths
      /\ StronglySorted
           (fun a b => (count_occ N.eq_dec a SLASH
                        <= count_occ N.eq_dec b SLASH)%nat)
           (directories r)
      /\ forall n,
           List.filter (fun d => (count_occ N.eq_dec d SLASH =? n)%nat)
             (directories r)
           = List.filter (fun d => (count_occ N.eq_dec d SLASH =? n)%nat)
               paths.
Proof.
  intros paths fuel Hnd Hall. unfold separateDirectoriesAndFiles.
  rewrite (classifyLoop_directories fuel paths [] [] Hnd Hall).
  eexists. split; [reflexivity|]. cbn [directories files app].
  destruct (sortByDepth_spec paths) as (Hs & Hp & Hf).
  split; [reflexivity|]. split; [exact Hp|]. split.
  - now apply sorted_by_slashes.
  - intros n. specialize (Hf n).
    rewrite (List.filter_ext _ (fun d => (depth d =? n)%nat))
      by (intros d; now rewrite depth_counts_slashes).
    rewrite (List.filter_ext (fun d => (count_occ N.eq_dec d SLASH =? n)%nat)
               (fun d => (depth d =? n)%nat))
      by (intros d; now rewrite depth_counts_slashes).
    exact Hf.
Qed.

(** A list out of order: [z/] and [a/], with one [/] each, come first
    and keep their order, and [a/b/], with two, comes last. *)
Lemma directory_list_is_sorted_stably_witness :
  separateDirectoriesAndFiles 0 [lit "a/b/"; lit "z/"; lit "a/"]
  = Some {| directories := [lit "z/"; lit "a/"; lit "a/b/"]; files := [] |}
  /\ exists r,
       separateDirectoriesAndFiles 0 [lit "a/b/"; lit "z/"; lit "a/"] = Some r
       /\ files r = []
       /\ Permutation (directories r) [lit "a/b/"; lit "z/"; lit "a/"]
       /\ StronglySorted
            (fun a b => (count_occ N.eq_dec a SLASH
                         <= count_occ N.eq_dec b SLASH)%nat)
            (directories r)
       /\ forall n,
            List.filter (fun d => (count_occ N.eq_dec d SLASH =? n)%nat)
              (directories r)
            = List.filter (fun d => (count_occ N.eq_dec d SLASH =? n)%nat)
                [lit "a/b/"; lit "z/"; lit "a/"].
Proof.
  split; [vm_compute; reflexivity|].
  apply (directory_list_is_sorted_stably [lit "a/b/"; lit "z/"; lit "a/"] 0).
  - apply (bool_decide_unpack _). vm_compute. exact I.
  - repeat constructor.
Defined.

(** X12.  Classifying the directories of a result once more changes
    nothing: they come back as they are, in the same order, and with no
    file, whatever the number of turns. *)
Theorem directories_classify_to_themselves :
  forall (paths : list JsString.t) (fuel fuel' : nat) (r : Classification),
    separateDirectoriesAndFiles fuel paths = Some r ->
    separateDirectoriesAndFiles fuel' (directories r)
    = Some {| directories := directories r; files := [] |}.
Proof.
  intros paths fuel fuel' r Hr.
  assert (Hends : Forall (fun p => endsWith SLASH p = true) (directories r)).
  { apply separate_spec in Hr as (_ & Hdirs). apply Forall_forall.
    intros d Hd%Hdirs.
    destruct Hd as [[_ H]|(f & _ & _ & H)]; [exact H|].
    now apply dirChain_endsWith in H. }
  unfold separateDirectoriesAndFiles in Hr.
  destruct (classifyLoop fuel paths ([], [])) as [[dirs fs]|] eqn:Hloop;
    [|discriminate].
  injection Hr as <-. cbn [directories] in *.
  apply classifyLoop_spec in Hloop as (_ & _ & Hnd).
  destruct (sortByDepth_spec dirs) as (Hsorted & Hperm & _).
  unfold separateDirectoriesAndFiles.
  rewrite (classifyLoop_directories fuel' (sortByDepth dirs) [] []).
  - cbn [app]. now rewrite (sortByDepth_sorted_id _ Hsorted).
  - cbn [app]. rewrite Hperm. apply Hnd, NoDup_nil_2.
  - exact Hends.
Qed.

Lemma directories_classify_to_themselves_witness :
  separateDirectoriesAndFiles 0
    [lit "project/"; lit "project/src/"; lit "project/src/components/"]
  = Some {| directories :=
              [lit "project/"; lit "project/src/";
               lit "project/src/components/"];
            files := [] |}.
Proof.
  apply (directories_classify_to_themselves examplePaths 40 0
           {| directories :=
                [lit "project/"; lit "project/src/";
                 lit "project/src/components/"];
              files :=
                [lit "project/src/components/Button.js";
                 lit "project/src/components/Input.js";
                 lit "project/src/index.js"; lit "project/package.json"] |}).
  vm_compute. reflexivity.
Defined.

(** * The command line *)

Lemma args_ind2 (P : list JsString.t -> Prop) :
  P [] ->
  (forall a, P [a]) ->
  (forall a b l, P l -> P (b :: l) -> P (a :: b :: l)) ->
  forall l, P l.
Proof.
  intros Hnil Hone Hstep l.
  assert (H : P l /\ forall a, P (a :: l)).
  { induction l as [|b l [IH1 IH2]].
    - split; [exact Hnil|exact Hone].
    - split; [apply IH2|]. intros a. apply Hstep; [exact IH1|apply IH2]. }
  apply H.
Qed.

Lemma parseArgsLoop_cons2 a b l options :
  Cli.parseArgsLoop (a :: b :: l) options
  = if Cli.isHelp a
    then Cli.parseArgsLoop (b :: l) (Cli.setShowHelp options)
    else if Cli.isYes a
    then Cli.parseArgsLoop (b :: l) (Cli.setSkipConfirmation options)
    else if Cli.isOutput a
    then Cli.parseArgsLoop l
           (Cli.setOutputDir (if truthy b then b else lit ".") options)
    else if Cli.isStructure a
    then Cli.parseArgsLoop l
           (Cli.setDirectStructure (if truthy b then Some b else None)
              options)
    else if negb (Cli.truthyOrNull (Cli.filePath options))
            && negb (Cli.truthyOrNull (Cli.directStructure options))
    then Cli.parseArgsLoop (b :: l) (Cli.setFilePath a options)
    else Cli.parseArgsLoop (b :: l) options.
Proof. reflexivity. Qed.

Lemma parseArgsLoop_proper cliArgs :
  forall options,
    Cli.outputDir options <> [] ->
    Cli.directStructure options <> Some [] ->
    Cli.outputDir (Cli.parseArgsLoop cliArgs options) <> []
    /\ Cli.directStructure (Cli.parseArgsLoop cliArgs options) <> Some [].
Proof.
  induction cliArgs as [|a|a b l IH1 IH2] using args_ind2;
    intros o Ho Hs.
  - now split.
  - simpl. destruct (Cli.isHelp a); [now split|].
    destruct (Cli.isYes a); [now split|].
    destruct (Cli.isOutput a); [split; [discriminate|exact Hs]|].
    destruct (Cli.isStructure a); [split; [exact Ho|discriminate]|].
    destruct (_ && _); now split.
  - rewrite parseArgsLoop_cons2.
    destruct (Cli.isHelp a); [now apply IH2|].
    destruct (Cli.isYes a); [now apply IH2|].
    destruct (Cli.isOutput a).
    { apply IH1; [|exact Hs]. cbn [Cli.setOutputDir Cli.outputDir].
      destruct b; [discriminate|discriminate]. }
    destruct (Cli.isStructure a).
    { apply IH1; [exact Ho|]. cbn [Cli.setDirectStructure Cli.directStructure].
      destruct b; discriminate. }
    destruct (_ && _); now apply IH2.
Qed.

(** X13.  Whatever the arguments are, the output directory that
    [parseArgs] returns is never the empty string (an empty or a missing
    value of [-o] gives [.]), and the structure text is [null] or a text
    that is not empty. *)
Theorem parseArgs_output_and_structure_are_never_empty :
  forall cliArgs : list JsString.t,
    Cli.outputDir (Cli.parseArgs cliArgs) <> []
    /\ Cli.directStructure (Cli.parseArgs cliArgs) <> Some [].
Proof.
  intros cliArgs. apply parseArgsLoop_proper; discriminate.
Qed.

Lemma parseArgsLoop_flag_step a l options :
  Cli.takesValue a = false ->
  Cli.directStructure options = None ->
  Cli.parseArgsLoop (a :: l) options
  = Cli.parseArgsLoop l
      (if Cli.isHelp a then Cli.setShowHelp options
       else if Cli.isYes a then Cli.setSkipConfirmation options
       else if Cli.truthyOrNull (Cli.filePath options) then options
       else Cli.setFilePath a options).
Proof.
  unfold Cli.takesValue. intros [Hout Hstr]%orb_false_iff Hs.
  cbn [Cli.parseArgsLoop]. rewrite Hout, Hstr, Hs.
  cbn [Cli.truthyOrNull negb]. rewrite andb_true_r.
  destruct (Cli.isHelp a); [reflexivity|].
  destruct (Cli.isYes a); [reflexivity|].
  now destruct (Cli.truthyOrNull (Cli.filePath options)).
Qed.

Lemma chosenFile_cons a positionals :
  Cli.chosenFile (a :: positionals)
  = if truthy a then Some a
    else match Cli.chosenFile positionals with
         | Some p => Some p
         | None => Some a
         end.
Proof.
  unfold Cli.chosenFile. cbn [find]. destruct (truthy a); [reflexivity|].
  destruct (find truthy positionals); [reflexivity|].
  rewrite last_cons. now destruct (last positionals).
Qed.

Lemma isPositional_flag a :
  Cli.takesValue a = false ->
  Cli.isPositional a = negb (Cli.isHelp a) && negb (Cli.isYes a).
Proof.
  unfold Cli.takesValue, Cli.isPositional.
  intros [-> ->]%orb_false_iff. rewrite !orb_false_r. apply negb_orb.
Qed.

Lemma isHelp_not_isYes a : Cli.isHelp a = true -> Cli.isYes a = false.
Proof.
  unfold Cli.isHelp.
  intros [H|H]%orb_true_iff; apply bool_decide_eq_true in H; subst a;
    reflexivity.
Qed.

Lemma parseArgsLoop_flags cliArgs :
  forall options,
    Forall (fun arg => Cli.takesValue arg = false) cliArgs ->
    Cli.directStructure options = None ->
    Cli.showHelp (Cli.parseArgsLoop cliArgs options)
    = Cli.showHelp options || existsb Cli.isHelp cliArgs
    /\ Cli.skipConfirmation (Cli.parseArgsLoop cliArgs options)
       = Cli.skipConfirmation options || existsb Cli.isYes cliArgs
    /\ Cli.outputDir (Cli.parseArgsLoop cliArgs options)
       = Cli.outputDir options
    /\ Cli.directStructure (Cli.parseArgsLoop cliArgs options) = None
    /\ Cli.filePath (Cli.parseArgsLoop cliArgs options)
       = if Cli.truthyOrNull (Cli.filePath options)
         then Cli.filePath options
         else match Cli.chosenFile (List.filter Cli.isPositional cliArgs) with
              | Some p => Some p
              | None => Cli.filePath options
              end.
Proof.
  induction cliArgs as [|a l IH]; intros o Hflags Hs.
  - simpl. rewrite !orb_false_r. repeat split; [exact Hs|].
    now destruct (Cli.truthyOrNull (Cli.filePath o)).
  - apply Forall_cons in Hflags as [Ha Hflags].
    rewrite (parseArgsLoop_flag_step a l o Ha Hs).
    cbn [existsb List.filter]. rewrite (isPositional_flag a Ha).
    destruct (Cli.isHelp a) eqn:Hh; [|destruct (Cli.isYes a) eqn:Hy].
    + destruct (IH (Cli.setShowHelp o) Hflags Hs) as (E1 & E2 & E3 & E4 & E5).
      rewrite E1, E2, E3, E4, E5, (isHelp_not_isYes a Hh). cbn.
      rewrite orb_true_r. now repeat split.
    + destruct (IH (Cli.setSkipConfirmation o) Hflags Hs)
        as (E1 & E2 & E3 & E4 & E5).
      rewrite E1, E2, E3, E4, E5. cbn. rewrite orb_true_r.
      now repeat split.
    + cbn [negb andb orb]. rewrite chosenFile_cons.
      destruct (Cli.truthyOrNull (Cli.filePath o)) eqn:Hf.
      * destruct (IH o Hflags Hs) as (E1 & E2 & E3 & E4 & E5).
        rewrite E1, E2, E3, E4, E5, Hf. now repeat split.
      * destruct (IH (Cli.setFilePath a o) Hflags Hs)
          as (E1 & E2 & E3 & E4 & E5).
        rewrite E1, E2, E3, E4, E5. cbn. repeat split.
        destruct (truthy a); [reflexivity|].
        now destruct (Cli.chosenFile (List.filter Cli.isPositional l)).
Qed.

(** X14.  When no argument is [-o], [--output], [-s] or [--structure]:
    help is asked for exactly when [-h] or [--help] is among the
    arguments, confirmation is skipped exactly when [-y] or [--yes] is,
    wherever they stand; the output directory is [.] and there is no
    structure text; and the file is the first argument that is neither an
    option nor empty, the later ones being ignored (it is the empty
    string when all the arguments that are no option are empty, and
    [null] when there is none). *)
Theorem parseArgs_without_value_options :
  forall cliArgs : list JsString.t,
    Forall (fun arg => Cli.takesValue arg = false) cliArgs ->
    Cli.showHelp (Cli.parseArgs cliArgs) = existsb Cli.isHelp cliArgs
    /\ Cli.skipConfirmation (Cli.parseArgs cliArgs)
       = existsb Cli.isYes cliArgs
    /\ Cli.outputDir (Cli.parseArgs cliArgs) = lit "."
    /\ Cli.directStructure (Cli.parseArgs cliArgs) = None
    /\ Cli.filePath (Cli.parseArgs cliArgs)
       = Cli.chosenFile (List.filter Cli.isPositional cliArgs).
Proof.
  intros cliArgs Hflags.
  destruct (parseArgsLoop_flags cliArgs Cli.defaults Hflags eq_refl)
    as (H1 & H2 & H3 & H4 & H5).
  unfold Cli.parseArgs. rewrite H1, H2, H3, H4, H5. cbn.
  repeat split.
  now destruct (Cli.chosenFile (List.filter Cli.isPositional cliArgs)).
Qed.

Lemma parseArgs_without_value_options_witness :
  Cli.parseArgs [lit "structure.txt"; lit "-y"; lit "other.txt"]
  = {| Cli.filePath := Some (lit "structure.txt");
       Cli.outputDir := lit ".";
       Cli.skipConfirmation := true;
       Cli.showHelp := false;
       Cli.directStructure := None |}.
Proof.
  destruct (parseArgs_without_value_options
              [lit "structure.txt"; lit "-y"; lit "other.txt"])
    as (H1 & H2 & H3 & H4 & H5).
  - repeat constructor.
  - destruct (Cli.parseArgs _) as [f o y h d]. cbn in *.
    now rewrite H1, H2, H3, H4, H5.
Defined.

Lemma parseArgsLoop_flagStep a l options :
  Cli.takesValue a = false ->
  Cli.parseArgsLoop (a :: l) options
  = Cli.parseArgsLoop l (Cli.flagStep a options).
Proof.
  unfold Cli.takesValue, Cli.flagStep. intros [Hout Hstr]%orb_false_iff.
  cbn [Cli.parseArgsLoop]. rewrite Hout, Hstr.
  destruct (Cli.isHelp a); [reflexivity|].
  destruct (Cli.isYes a); [reflexivity|].
  now destruct (_ && _).
Qed.

Lemma parseArgsLoop_app_flags before :
  forall rest options,
    Forall (fun arg => Cli.takesValue arg = false) before ->
    Cli.parseArgsLoop (before ++ rest) options
    = Cli.parseArgsLoop rest (Cli.parseArgsLoop before options).
Proof.
  induction before as [|a before IH]; intros rest o Hflags; [reflexivity|].
  apply Forall_cons in Hflags as [Ha Hflags].
  change ((a :: before) ++ rest) with (a :: before ++ rest).
  rewrite !(parseArgsLoop_flagStep a _ _ Ha). now apply IH.
Qed.

Lemma flagStep_setOutputDir a dir options :
  Cli.flagStep a (Cli.setOutputDir dir options)
  = Cli.setOutputDir dir (Cli.flagStep a options).
Proof.
  unfold Cli.flagStep. cbn [Cli.setOutputDir Cli.filePath Cli.directStructure].
  destruct (Cli.isHelp a); [reflexivity|].
  destruct (Cli.isYes a); [reflexivity|].
  now destruct (_ && _).
Qed.

Lemma parseArgsLoop_setOutputDir after :
  forall dir options,
    Forall (fun arg => Cli.takesValue arg = false) after ->
    Cli.parseArgsLoop after (Cli.setOutputDir dir options)
    = Cli.setOutputDir dir (Cli.parseArgsLoop after options).
Proof.
  induction after as [|a after IH]; intros dir o Hflags; [reflexivity|].
  apply Forall_cons in Hflags as [Ha Hflags].
  rewrite !(parseArgsLoop_flagStep a _ _ Ha), flagStep_setOutputDir.
  now apply IH.
Qed.

(** X15.  The output option may stand anywhere among arguments that take
    no value: [-o] (or [--output]) and the argument behind it, put
    before, between or behind such arguments, only set the output
    directory, to that argument as it is (even if it looks like an
    option) or to [.] when it is the empty string, and the other
    arguments are read as they are without the two. *)
Theorem output_option_may_stand_anywhere :
  forall (before after : list JsString.t) (option value : JsString.t),
    Cli.isOutput option = true ->
    Forall (fun arg => Cli.takesValue arg = false) before ->
    Forall (fun arg => Cli.takesValue arg = false) after ->
    Cli.parseArgs (before ++ option :: value :: after)
    = Cli.setOutputDir (if truthy value then value else lit ".")
        (Cli.parseArgs (before ++ after)).
Proof.
  intros before after option value Hopt Hb Ha. unfold Cli.parseArgs.
  rewrite !(parseArgsLoop_app_flags before _ _ Hb).
  assert (Hstep : forall o,
    Cli.parseArgsLoop (option :: value :: after) o
    = Cli.parseArgsLoop after
        (Cli.setOutputDir (if truthy value then value else lit ".") o)).
  { intros o. rewrite parseArgsLoop_cons2, Hopt.
    assert (Hh : Cli.isHelp option = false).
    { unfold Cli.isOutput in Hopt. apply orb_true_iff in Hopt as [H|H];
        apply bool_decide_eq_true in H; subst option; reflexivity. }
    assert (Hy : Cli.isYes option = false).
    { unfold Cli.isOutput in Hopt. apply orb_true_iff in Hopt as [H|H];
        apply bool_decide_eq_true in H; subst option; reflexivity. }
    now rewrite Hh, Hy. }
  rewrite Hstep. now apply parseArgsLoop_setOutputDir.
Qed.

Lemma output_option_may_stand_anywhere_witness :
  Cli.parseArgs [lit "structure.txt"; lit "-o"; lit "-y"; lit "--yes"]
  = Cli.setOutputDir (lit "-y")
      (Cli.parseArgs [lit "structure.txt"; lit "--yes"]).
Proof.
  apply (output_option_may_stand_anywhere
           [lit "structure.txt"] [lit "--yes"] (lit "-o") (lit "-y")).
  - reflexivity.
  - repeat constructor.
  - repeat constructor.
Defined.

(** * Building the structure *)

Lemma classification_empty_iff fuel paths r :
  separateDirectoriesAndFiles fuel paths = Some r ->
  ((length (directories r) =? 0)%nat && (length (files r) =? 0)%nat = true
   <-> paths = []).
Proof.
  intros Hr. pose proof (separate_spec _ _ _ Hr) as (Hfiles & Hdirs).
  split.
  - intros [Hd Hf]%andb_true_iff.
    apply Nat.eqb_eq, length_zero_iff_nil in Hd, Hf.
    destruct paths as [|p paths]; [reflexivity|]. exfalso.
    destruct (endsWith SLASH p) eqn:Hp.
    + assert (Hin : p ∈ directories r).
      { apply Hdirs. left. split; [apply list_elem_of_here|exact Hp]. }
      rewrite Hd in Hin. now apply elem_of_nil in Hin.
    + rewrite Hfiles in Hf. simpl in Hf. unfold isFile at 1 in Hf.
      rewrite Hp in Hf. discriminate.
  - intros ->. unfold separateDirectoriesAndFiles in Hr. simpl in Hr.
    injection Hr as <-. reflexivity.
Qed.

Section GlueProperties.

Context {World Error : Type}.
Variable fileSystem : FileSystem World Error.
Variable join : JsString.t -> JsString.t -> JsString.t.
Variable confirmAction : World -> World * bool.

Lemma perform_app calls calls' w :
  perform fileSystem (calls ++ calls') w
  = match perform fileSystem calls w with
    | (w1, Some e) => (w1, Some e)
    | (w1, None) => perform fileSystem calls' w1
    end.
Proof.
  revert w. induction calls as [|c calls IH]; intros w; simpl.
  - reflexivity.
  - destruct (perform1 fileSystem c w) as [w1 [e|]]; [reflexivity|apply IH].
Qed.

Lemma createDirectories_perform outputDir dirs w :
  createDirectories fileSystem join outputDir dirs w
  = perform fileSystem (map (fun dir => Mkdir (join outputDir dir)) dirs) w.
Proof.
  revert w. induction dirs as [|d dirs IH]; intros w; simpl.
  - reflexivity.
  - destruct (mkdir fileSystem (join outputDir d) w) as [w1 [e|]];
      [reflexivity|apply IH].
Qed.

Lemma createFiles_perform outputDir fs w :
  createFiles fileSystem join outputDir fs w
  = perform fileSystem
      (flat_map
         (fun file =>
            [Mkdir (NodePath.dirname (join outputDir file));
             WriteFile (join outputDir file) []]) fs) w.
Proof.
  revert w. induction fs as [|f fs IH]; intros w; simpl.
  - reflexivity.
  - destruct (mkdir fileSystem _ w) as [w1 [e|]]; [reflexivity|].
    destruct (writeFile fileSystem _ [] w1) as [w2 [e|]];
      [reflexivity|apply IH].
Qed.

Lemma createStructure_proceeds fuel content outputDir skip w r :
  separateDirectoriesAndFiles fuel (paths (parseTreeStructure content))
  = Some r ->
  paths (parseTreeStructure content) <> [] ->
  createStructure fileSystem join confirmAction fuel content outputDir skip w
  = let asked := if skip then (w, true) else confirmAction w in
    if negb asked.2
    then Some (asked.1, {| success := false; error := None |})
    else
      let done := perform fileSystem (callsFor join outputDir r) asked.1 in
      Some (done.1, {| success := noError done.2; error := done.2 |}).
Proof.
  intros Hr Hpaths. unfold createStructure. rewrite Hr.
  destruct ((length (directories r) =? 0)%nat
            && (length (files r) =? 0)%nat) eqn:Hempty.
  { apply (classification_empty_iff _ _ _ Hr) in Hempty. contradiction. }
  cbv zeta.
  destruct (if skip then (w, true) else confirmAction w) as [w1 proceed].
  cbn [fst snd]. destruct proceed; cbn [negb]; [|reflexivity].
  unfold callsFor. rewrite perform_app.
  rewrite createDirectories_perform.
  destruct (perform fileSystem _ w1) as [w2 [e|]]; [reflexivity|].
  rewrite createFiles_perform.
  now destruct (perform fileSystem _ w2) as [w3 [e|]].
Qed.

(** X16.  There is nothing to build exactly when the text gives no path.
    Then [parseDirectoryFromText] reports failure, without an error,
    without asking for confirmation and without a call of the file
    system; and when the text gives a path, the classification has a
    directory or a file, so this way out is not taken. *)
Theorem nothing_is_built_for_a_text_without_paths :
  forall (fuel : nat) (structureText outputDir : JsString.t)
         (skip : bool) (w : World),
    (paths (parseTreeStructure structureText) = [] ->
     parseDirectoryFromText fileSystem join confirmAction
       fuel structureText outputDir skip w
     = Some (w, {| success := false; error := None |}))
    /\ (forall r,
           separateDirectoriesAndFiles fuel
             (paths (parseTreeStructure structureText)) = Some r ->
           paths (parseTreeStructure structureText) <> [] ->
           directories r <> [] \/ files r <> []).
Proof.
  intros fuel text outputDir skip w. split.
  - intros Hnone. unfold parseDirectoryFromText, createStructure.
    rewrite Hnone. reflexivity.
  - intros r Hr Hpaths.
    destruct (directories r) as [|d ds] eqn:Hd; [|left; discriminate].
    destruct (files r) as [|f fs] eqn:Hf; [|right; discriminate].
    exfalso. apply Hpaths, (classification_empty_iff _ _ _ Hr).
    now rewrite Hd, Hf.
Qed.

(** X17.  When the user does not confirm, nothing is built: the run
    reports failure without an error, and the world is as the question
    left it, no call of the file system having been made. *)
Theorem nothing_is_built_without_confirmation :
  forall (fuel : nat) (structureText outputDir : JsString.t) (w : World)
         (r : Classification),
    separateDirectoriesAndFiles fuel
      (paths (parseTreeStructure structureText)) = Some r ->
    paths (parseTreeStructure structureText) <> [] ->
    (confirmAction w).2 = false ->
    parseDirectoryFromText fileSystem join confirmAction
      fuel structureText outputDir false w
    = Some ((confirmAction w).1, {| success := false; error := None |}).
Proof.
  intros fuel text outputDir w r Hr Hpaths Hno.
  unfold parseDirectoryFromText.
  rewrite (createStructure_proceeds _ _ _ _ _ _ Hr Hpaths).
  cbv zeta. now rewrite Hno.
Qed.

(** X18.  On a text that gives at least one path and whose paths the
    classifier returns a classification for, a run that is confirmed (or
    skips the confirmation) makes these calls, in this order and no other:
    [mkdir] of the joined path of every directory of the classification,
    then, for every file, [mkdir] of the directory of its joined path and
    [writeFile] of its joined path with the empty content; it stops at
    the first call that fails.  It reports success exactly when no call
    failed, and the error of the failing call otherwise. *)
Theorem confirmed_run_makes_the_planned_calls :
  forall (fuel : nat) (structureText outputDir : JsString.t) (skip : bool)
         (w : World) (r : Classification),
    separateDirectoriesAndFiles fuel
      (paths (parseTreeStructure structureText)) = Some r ->
    paths (parseTreeStructure structureText) <> [] ->
    skip = true \/ (confirmAction w).2 = true ->
    let w1 := if skip then w else (confirmAction w).1 in
    let done := perform fileSystem (callsFor join outputDir r) w1 in
    parseDirectoryFromText fileSystem join confirmAction
      fuel structureText outputDir skip w
    = Some (done.1, {| success := noError done.2; error := done.2 |}).
Proof.
  intros fuel text outputDir skip w r Hr Hpaths Hgo.
  unfold parseDirectoryFromText.
  rewrite (createStructure_proceeds _ _ _ _ _ _ Hr Hpaths).
  cbv zeta. destruct skip; cbn [fst snd negb]; [reflexivity|].
  destruct Hgo as [Hgo|Hgo]; [discriminate|]. now rewrite Hgo.
Qed.

(** X19.  The first call that fails ends the run: the calls before it
    have been made, none of the calls behind it is made, and the result
    is a failure that carries the error of that call. *)
Theorem first_failing_call_ends_the_run :
  forall (fuel : nat) (structureText outputDir : JsString.t) (skip : bool)
         (w w2 w3 : World) (r : Classification)
         (made : list FsCall) (call : FsCall) (left : list FsCall)
         (e : Error),
    separateDirectoriesAndFiles fuel
      (paths (parseTreeStructure structureText)) = Some r ->
    paths (parseTreeStructure structureText) <> [] ->
    skip = true \/ (confirmAction w).2 = true ->
    callsFor join outputDir r = made ++ call :: left ->
    perform fileSystem made (if skip then w else (confirmAction w).1)
    = (w2, None) ->
    perform1 fileSystem call w2 = (w3, Some e) ->
    parseDirectoryFromText fileSystem join confirmAction
      fuel structureText outputDir skip w
    = Some (w3, {| success := false; error := Some e |}).
Proof.
  intros fuel text outputDir skip w w2 w3 r made call rest e
    Hr Hpaths Hgo Hcalls Hmade Hcall.
  unfold parseDirectoryFromText.
  rewrite (createStructure_proceeds _ _ _ _ _ _ Hr Hpaths).
  cbv zeta.
  assert (Hasked : (if skip then (w, true) else confirmAction w)
                   = (if skip then w else (confirmAction w).1, true)).
  { destruct skip; [reflexivity|]. destruct Hgo as [Hgo|Hgo];
      [discriminate|]. now destruct (confirmAction w) as [w1 [|]]. }
  rewrite Hasked. cbn [fst snd negb].
  rewrite Hcalls, perform_app, Hmade. cbn [perform]. now rewrite Hcall.
Qed.

End GlueProperties.

Lemma nothing_is_built_for_a_text_without_paths_witness :
  parseDirectoryFromText recorder slashJoin (answer true)
    0 (lit "# note") (lit "out") false []
  = Some ([], {| success := false; error := None |}).
Proof.
  destruct (nothing_is_built_for_a_text_without_paths
              recorder slashJoin (answer true)
              0 (lit "# note") (lit "out") false []) as [Hnone _].
  apply Hnone. vm_compute. reflexivity.
Defined.

Lemma nothing_is_built_without_confirmation_witness :
  parseDirectoryFromText recorder slashJoin (answer false)
    20 smallTree (lit "out") false []
  = Some ([], {| success := false; error := None |}).
Proof.
  apply (nothing_is_built_without_confirmation
           recorder slashJoin (answer false) 20 smallTree (lit "out") []
           {| directories := [lit "app/"]; files := [lit "app/main.js"] |}).
  - vm_compute. reflexivity.
  - vm_compute. discriminate.
  - reflexivity.
Defined.

Lemma confirmed_run_makes_the_planned_calls_witness :
  parseDirectoryFromText recorder slashJoin (answer true)
    20 smallTree (lit "out") false []
  = Some ([Mkdir (lit "out/app/"); Mkdir (lit "out/app");
           WriteFile (lit "out/app/main.js") []],
          {| success := true; error := None |}).
Proof.
  pose proof (confirmed_run_makes_the_planned_calls
                recorder slashJoin (answer true) 20 smallTree (lit "out")
                false []
                {| directories := [lit "app/"];
                   files := [lit "app/main.js"] |}) as H.
  cbv zeta in H. rewrite H.
  - vm_compute. reflexivity.
  - vm_compute. reflexivity.
  - vm_compute. discriminate.
  - right. reflexivity.
Defined.

Lemma first_failing_call_ends_the_run_witness :
  parseDirectoryFromText (refusing (lit "out/app")) slashJoin (answer true)
    20 smallTree (lit "out") true []
  = Some ([Mkdir (lit "out/app/"); Mkdir (lit "out/app")],
          {| success := false; error := Some (lit "EACCES") |}).
Proof.
  apply (first_failing_call_ends_the_run
           (refusing (lit "out/app")) slashJoin (answer true)
           20 smallTree (lit "out") true []
           [Mkdir (lit "out/app/")]
           [Mkdir (lit "out/app/"); Mkdir (lit "out/app")]
           {| directories := [lit "app/"]; files := [lit "app/main.js"] |}
           [Mkdir (lit "out/app/")] (Mkdir (lit "out/app"))
           [WriteFile (lit "out/app/main.js") []] (lit "EACCES")).
  - vm_compute. reflexivity.
  - vm_compute. discriminate.
  - left. reflexivity.
  - vm_compute. reflexivity.
  - vm_compute. reflexivity.
  - vm_compute. reflexivity.
Defined.

(** ** From the arguments to the exit code *)

(** X20.  What [main] does on arguments that are flags and files only
    ([-h], [--help], [-y], [--yes] and arguments that are no option).
    With a help flag it exits with 0, and without a help flag and without
    a file name that is not empty it exits with 1; in both cases nothing
    is read, asked or built.  Otherwise it reads the first file named,
    builds under [.], skips the confirmation exactly when [-y] or [--yes]
    is given, and exits with 0 if the run succeeded and with 1 if it did
    not. *)
Theorem main_on_flags_and_files :
  forall {World Error : Type} (fileSystem : FileSystem World Error)
         (join : JsString.t -> JsString.t -> JsString.t)
         (confirmAction : World -> World * bool)
         (fuel : nat) (cliArgs : list JsString.t) (w : World),
    Forall (fun arg => Cli.takesValue arg = false) cliArgs ->
    main fileSystem join confirmAction fuel (Cli.parseArgs cliArgs) w
    = if existsb Cli.isHelp cliArgs
      then Some (w, {| exitCode := 0; mainError := None |})
      else
        match Cli.chosenFile (List.filter Cli.isPositional cliArgs) with
        | Some file =>
            if truthy file
            then exitOf
                   (parseDirectoryStructure fileSystem join confirmAction
                      fuel file (lit ".") (existsb Cli.isYes cliArgs) w)
            else Some (w, {| exitCode := 1; mainError := None |})
        | None => Some (w, {| exitCode := 1; mainError := None |})
        end.
Proof.
  intros World Error fs join confirm fuel args w Hflags.
  destruct (parseArgsLoop_flags args Cli.defaults Hflags eq_refl)
    as (H1 & H2 & H3 & H4 & H5).
  unfold main, Cli.parseArgs. rewrite H1, H2, H3, H4, H5.
  cbn [Cli.defaults Cli.showHelp Cli.skipConfirmation Cli.outputDir
       Cli.filePath Cli.truthyOrNull orb].
  destruct (existsb Cli.isHelp args); [reflexivity|]. cbn [orb negb].
  rewrite andb_true_r.
  destruct (Cli.chosenFile (List.filter Cli.isPositional args)) as [file|];
    [|reflexivity].
  cbn [Cli.truthyOrNull]. destruct (truthy file); reflexivity.
Qed.

Lemma main_on_flags_and_files_witness :
  main recorder slashJoin (answer true) 20
    (Cli.parseArgs [lit "-y"; lit "--help"]) []
  = Some ([], {| exitCode := 0; mainError := None |})
  /\ main recorder slashJoin (answer true) 20 (Cli.parseArgs []) []
     = Some ([], {| exitCode := 1; mainError := None |})
  /\ main recorder slashJoin (answer true) 20
       (Cli.parseArgs [lit "tree.txt"; lit "-y"]) []
     = Some ([], {| exitCode := 1; mainError := Some (lit "ENOENT") |}).
Proof.
  split; [|split].
  - rewrite (main_on_flags_and_files recorder slashJoin (answer true) 20
               [lit "-y"; lit "--help"] []).
    + reflexivity.
    + repeat constructor.
  - rewrite (main_on_flags_and_files recorder slashJoin (answer true) 20 [] []).
    + reflexivity.
    + constructor.
  - rewrite (main_on_flags_and_files recorder slashJoin (answer true) 20
               [lit "tree.txt"; lit "-y"] []).
    + vm_compute. reflexivity.
    + repeat constructor.
Defined.

(** * Drawing a tree and parsing it *)

Lemma renderEntry_dir level isLast n c children :
  renderEntry level isLast (Dir n c children)
  = formatLine level isLast n c :: renderAll (S level) children.
Proof.
  simpl. f_equal. induction children as [|e es IH]; simpl; [reflexivity|].
  now rewrite IH.
Qed.

Lemma processLine_formatted st level isLast n c :
  n <> [] -> goodText n -> goodText c ->
  processLine st (formatLine level isLast n c)
  = let stack := take (level + 1) (st_parentStack st) in
    let fullPath := topOrEmpty stack ++ n in
    {| st_paths := st_paths st ++ [fullPath];
       st_comments :=
         if truthy c then setProperty fullPath c (st_comments st)
         else st_comments st;
       st_parentStack :=
         if endsWith SLASH n then stack ++ [fullPath] else stack |}.
Proof.
  intros Hne (Hnt & Hnh & Hnb & _) (Hct & Hch & Hcb & _).
  pose proof (formatLine_extract level isLast n Hne Hnt Hnh c Hct Hch) as He.
  rewrite processLine_named by (rewrite He; exact Hne).
  rewrite He. cbn [name comment].
  rewrite (formatLine_level level isLast n c Hnb Hcb), adjustStack_take.
  reflexivity.
Qed.

Lemma take_stack_at (pre : list JsString.t) parent post :
  take (length pre + 1) (pre ++ parent :: post) = pre ++ [parent].
Proof.
  change (pre ++ parent :: post) with (pre ++ [parent] ++ post).
  rewrite app_assoc.
  replace (length pre + 1)%nat with (length (pre ++ [parent]))
    by (rewrite length_app; reflexivity).
  apply take_app_length.
Qed.

Lemma topOrEmpty_snoc (pre : list JsString.t) parent :
  topOrEmpty (pre ++ [parent]) = parent.
Proof. apply topOrEmpty_last, last_snoc. Qed.

Lemma renderAll_drawsPaths children :
  Forall drawsPaths children ->
  Forall WellFormed children ->
  forall level st pre parent post,
    st_parentStack st = pre ++ parent :: post ->
    length pre = level ->
    exists post',
      st_paths (fold_left processLine (renderAll level children) st)
      = st_paths st ++ List.flat_map (pathsOf parent) children
      /\ st_parentStack (fold_left processLine (renderAll level children) st)
         = pre ++ parent :: post'.
Proof.
  induction children as [|e es IH];
    intros Hdraw Hwf level st pre parent post Hstack Hlen; simpl.
  - exists post. now rewrite app_nil_r.
  - apply Forall_cons in Hdraw as [He Hes].
    apply Forall_cons in Hwf as [Hwe Hwes].
    rewrite fold_left_app.
    destruct (He Hwe level (isLastOf es) st pre parent post Hstack Hlen)
      as (post1 & Hp1 & Hs1).
    destruct (IH Hes Hwes level _ pre parent post1 Hs1 Hlen)
      as (post2 & Hp2 & Hs2).
    exists post2. split; [|exact Hs2].
    now rewrite Hp2, Hp1, <- app_assoc.
Qed.

Lemma renderEntry_drawsPaths e : drawsPaths e.
Proof.
  induction e as [n c|n c children IH] using Entry_nested_ind;
    intros Hwf level isLast st pre parent post Hstack Hlen; subst level.
  - inversion Hwf as [? ? Hne Hn Hc Hfile|]; subst. simpl.
    rewrite (processLine_formatted _ _ _ _ _ Hne Hn Hc). cbv zeta.
    rewrite Hstack, take_stack_at, topOrEmpty_snoc, Hfile.
    cbn [st_paths st_parentStack]. exists []. split; reflexivity.
  - inversion Hwf as [|? ? ? Hne Hn Hc Hdir Hchildren]; subst.
    rewrite renderEntry_dir. cbn [fold_left pathsOf].
    pose proof (processLine_formatted st (length pre) isLast n c Hne Hn Hc)
      as Hline.
    cbv zeta in Hline.
    rewrite Hstack, take_stack_at, topOrEmpty_snoc, Hdir in Hline.
    set (st1 := processLine st (formatLine (length pre) isLast n c)) in *.
    destruct (renderAll_drawsPaths children IH Hchildren (S (length pre))
                st1 (pre ++ [parent]) (parent ++ n) [])
      as (post' & Hp & Hs).
    + now rewrite Hline.
    + rewrite length_app. simpl. lia.
    + exists ((parent ++ n) :: post'). split.
      * rewrite Hp, Hline. cbn [st_paths]. now rewrite <- app_assoc.
      * rewrite Hs. now rewrite <- app_assoc.
Qed.

Lemma indentation_no_LF level : ~ In LF (indentation level).
Proof.
  induction level as [|level IH]; simpl; [tauto|].
  intros [H|[H|[H|[H|H]]]]; try discriminate. contradiction.
Qed.

Lemma formatLine_kept level isLast n c :
  n <> [] -> goodText n -> goodText c ->
  lineIsKept (formatLine level isLast n c).
Proof.
  intros Hne (Hnt & Hnh & _ & Hnl) (Hct & Hch & _ & Hcl). split.
  - unfold formatLine. intros [H|[H|[H|[H|[H|H]]]]]%in_app_iff.
    + now apply indentation_no_LF in H.
    + destruct isLast; discriminate.
    + discriminate.
    + discriminate.
    + discriminate.
    + apply in_app_iff in H as [H|H]; [contradiction|].
      destruct (truthy c); [|contradiction].
      destruct H as [H|[H|[H|H]]]; try discriminate. contradiction.
  - apply name_truthy_line_truthy.
    rewrite (formatLine_extract level isLast n Hne Hnt Hnh c Hct Hch).
    now apply truthy_true_iff.
Qed.

Lemma renderEntry_kept e :
  WellFormed e ->
  forall level isLast, Forall lineIsKept (renderEntry level isLast e).
Proof.
  induction e as [n c|n c children IH] using Entry_nested_ind;
    intros Hwf level isLast.
  - inversion Hwf; subst. simpl. constructor; [|constructor].
    now apply formatLine_kept.
  - inversion Hwf as [|? ? ? Hne Hn Hc Hdir Hchildren]; subst.
    rewrite renderEntry_dir. constructor; [now apply formatLine_kept|].
    clear Hwf. generalize (S level) as lvl.
    induction children as [|e es IHes]; intros lvl; simpl; [constructor|].
    apply Forall_cons in IH as [IHe IH'].
    apply Forall_cons in Hchildren as [Hwe Hwes].
    apply Forall_app. split; [now apply IHe|now apply IHes].
Qed.

Lemma renderAll_kept children :
  Forall WellFormed children ->
  forall level, Forall lineIsKept (renderAll level children).
Proof.
  induction children as [|e es IH]; intros Hwf level; simpl; [constructor|].
  apply Forall_cons in Hwf as [Hwe Hwes].
  apply Forall_app. split; [now apply renderEntry_kept|now apply IH].
Qed.

Lemma nonBlankLines_kept lines :
  lines <> [] -> Forall lineIsKept lines ->
  nonBlankLines (unlines lines) = lines.
Proof.
  intros Hne Hkept. unfold nonBlankLines. rewrite split_unlines.
  - induction Hkept as [|l ls [_ Hl] _ IH]; simpl; [reflexivity|].
    rewrite Hl. f_equal. destruct ls; [reflexivity|]. now apply IH.
  - exact Hne.
  - eapply Forall_impl; [exact Hkept|]. now intros l [H _].
Qed.

(** X21.  A well-formed tree parses to its paths.  Take a first line
    that holds no line break and has a name, and entries that are well
    formed: every name is not empty, every name and every comment is
    trimmed and holds no [#], no [│] and no line break, the name of a
    directory ends in [/] and the name of a file does not.  The text made
    of the first line and, below it, the drawing of the entries (a line
    in the format of the tool for every entry, with as many bars as the
    entry has directories above it below the root, directories before
    what they hold) gives the root name and then the path of every
    entry, in the order of the drawing, the path of an entry being the
    names from the root down to it put one behind the other. *)
Theorem drawn_tree_parses_to_its_paths :
  forall (line0 : JsString.t) (children : list Entry),
    ~ In LF line0 ->
    rootName line0 <> [] ->
    Forall WellFormed children ->
    paths (parseTreeStructure (unlines (line0 :: renderAll 0 children)))
    = rootName line0 :: List.flat_map (pathsOf (rootName line0)) children.
Proof.
  intros line0 children Hlf Hroot Hwf. unfold parseTreeStructure.
  rewrite nonBlankLines_kept.
  - cbn [parseLines paths].
    destruct (renderAll_drawsPaths children
                (proj2 (Forall_forall _ _) (fun e _ => renderEntry_drawsPaths e))
                Hwf 0 (initState line0) [] (rootName line0) [])
      as (post' & Hp & _); [reflexivity|reflexivity|].
    rewrite Hp. unfold initState. cbn [st_paths].
    apply truthy_true_iff in Hroot. now rewrite Hroot.
  - discriminate.
  - constructor; [|now apply renderAll_kept]. split; [exact Hlf|].
    apply name_truthy_line_truthy. now apply truthy_true_iff.
Qed.

Lemma drawn_tree_parses_to_its_paths_witness :
  unlines (lit "project/"
           :: renderAll 0
                [Dir (lit "src/") []
                   [Dir (lit "components/") []
                      [File (lit "Button.js") (lit "Button component");
                       File (lit "Input.js") []];
                    File (lit "index.js") []];
                 File (lit "package.json") (lit "Project dependencies")])
  = exampleTree
  /\ paths (parseTreeStructure exampleTree) = examplePaths.
Proof.
  assert (Hdraw :
    unlines (lit "project/"
             :: renderAll 0
                  [Dir (lit "src/") []
                     [Dir (lit "components/") []
                        [File (lit "Button.js") (lit "Button component");
                         File (lit "Input.js") []];
                      File (lit "index.js") []];
                   File (lit "package.json") (lit "Project dependencies")])
    = exampleTree) by (vm_compute; reflexivity).
  split; [exact Hdraw|]. rewrite <- Hdraw.
  rewrite drawn_tree_parses_to_its_paths.
  - vm_compute. reflexivity.
  - vm_compute. intuition discriminate.
  - vm_compute. discriminate.
  - repeat (constructor; try (vm_compute; intuition discriminate)).
Defined.

(** ** A tree under an absolute root *)

(** X22.  A tree whose root name starts with [/] and which holds a file
    stops the whole tool: [parseDirectoryFromText] never returns, however
    many turns the parent loop is given, and so it neither asks for
    confirmation nor makes a call of the file system. *)
Theorem absolute_root_with_a_file_never_returns :
  forall {World Error : Type} (fileSystem : FileSystem World Error)
         (join : JsString.t -> JsString.t -> JsString.t)
         (confirmAction : World -> World * bool)
         (structureText outputDir line0 : JsString.t)
         (rest : list JsString.t) (file : JsString.t)
         (fuel : nat) (skip : bool) (w : World),
    nonBlankLines structureText = line0 :: rest ->
    startsWith SLASH (rootName line0) = true ->
    file ∈ paths (parseTreeStructure structureText) ->
    endsWith SLASH file = false ->
    parseDirectoryFromText fileSystem join confirmAction
      fuel structureText outputDir skip w = None.
Proof.
  intros World Error fs join confirm text outputDir line0 rest file fuel
    skip w Hlines Hroot Hin Hfile.
  unfold parseDirectoryFromText, createStructure, separateDirectoriesAndFiles.
  rewrite (classifyLoop_rooted_file_diverges fuel _ _ file Hin Hfile);
    [reflexivity|].
  rewrite (prefix_startsWith (rootName line0) file); [exact Hroot| |].
  - intros E. rewrite E in Hroot. discriminate.
  - unfold parseTreeStructure in Hin. rewrite Hlines in Hin.
    pose proof (parseLines_root_prefix line0 rest) as Hall.
    rewrite Forall_forall in Hall. now apply Hall.
Qed.

Lemma absolute_root_with_a_file_never_returns_witness :
  parseDirectoryFromText recorder slashJoin (answer true)
    1000 (unlines [lit "/srv/"; lit "└── index.html"]) (lit "out") true []
  = None.
Proof.
  apply (absolute_root_with_a_file_never_returns
           recorder slashJoin (answer true)
           (unlines [lit "/srv/"; lit "└── index.html"]) (lit "out")
           (lit "/srv/") [lit "└── index.html"] (lit "/srv/index.html")).
  - vm_compute. reflexivity.
  - reflexivity.
  - vm_compute. apply list_elem_of_further, list_elem_of_here.
  - reflexivity.
Defined.
